(** * Ripple simulation of [bundle.js]: shaders, driver loop and input adapter

    The two GLSL fragment shaders and the JavaScript driver of the page are
    embedded as Rocq functions.  GLSL [float] values are idealised as real
    numbers and JavaScript numbers as rationals (integers where the code
    only ever stores a [Math.floor] result), so the statements below are
    about the exact-arithmetic reading of the code; the rounding of the
    half-float render targets is outside the model.  The one exception is
    the size of the field: there a [Math.floor] turns the last bit of a
    product into a buffer dimension, so the products and quotients of
    lines 154-160 and 257-261 are rounded to the nearest double, as
    JavaScript does ([round64]). *)

From Bignums Require Import BigZ.
From Stdlib Require Import Reals Lra Lia ZArith QArith Qminmax Qround Qreals List.
From Stdlib Require Lqa Qabs String.
Import ListNotations.

Open Scope R_scope.

(** ** GLSL vectors and built-in functions *)

Record vec2 : Type := Vec2 { v2x : R; v2y : R }.
Record vec3 : Type := Vec3 { v3x : R; v3y : R; v3z : R }.
Record vec4 : Type := Vec4 { v4x : R; v4y : R; v4z : R; v4w : R }.

(** [vec4(a)]: the constructor that replicates one scalar. *)
Definition vec4_splat (a : R) : vec4 := Vec4 a a a a.

Definition vec2_add (a b : vec2) : vec2 := Vec2 (v2x a + v2x b) (v2y a + v2y b).
Definition vec2_sub (a b : vec2) : vec2 := Vec2 (v2x a - v2x b) (v2y a - v2y b).
Definition vec2_scale (k : R) (a : vec2) : vec2 := Vec2 (k * v2x a) (k * v2y a).

(** [uv - 0.5]: a scalar subtracted from every component. *)
Definition vec2_sub_scalar (a : vec2) (k : R) : vec2 := Vec2 (v2x a - k) (v2y a - k).

(** [scale / resolution] and [mouse / resolution]. *)
Definition scalar_div_vec2 (k : R) (a : vec2) : vec2 := Vec2 (k / v2x a) (k / v2y a).
Definition vec2_div (a b : vec2) : vec2 := Vec2 (v2x a / v2x b) (v2y a / v2y b).

Definition dot (a b : vec2) : R := v2x a * v2x b + v2y a * v2y b.

(** [step(edge, x)] is 0 when [x < edge] and 1 otherwise. *)
Definition step (edge x : R) : R := if Rlt_dec x edge then 0 else 1.

(** [mix(a, b, t) = a * (1 - t) + b * t]. *)
Definition mix (a b t : R) : R := a * (1 - t) + b * t.

Definition clamp (x lo hi : R) : R := Rmin (Rmax x lo) hi.

(** [smoothstep(edge0, edge1, x)], the Hermite interpolation of the clamped
    ratio, as GLSL implementations compute it. *)
Definition smoothstep (edge0 edge1 x : R) : R :=
  let t := clamp ((x - edge0) / (edge1 - edge0)) 0 1 in
  t * t * (3 - 2 * t).

Definition length3 (a : vec3) : R :=
  sqrt (v3x a * v3x a + v3y a * v3y a + v3z a * v3z a).

Definition normalize (a : vec3) : vec3 :=
  Vec3 (v3x a / length3 a) (v3y a / length3 a) (v3z a / length3 a).

Definition mix4 (a b : vec4) (t : R) : vec4 :=
  Vec4 (mix (v4x a) (v4x b) t) (mix (v4y a) (v4y b) t)
       (mix (v4z a) (v4z b) t) (mix (v4w a) (v4w b) t).

(** A [sampler2D] is what [texture2D] can do with it: a lookup from
    normalised coordinates to a texel. *)
Definition sampler2D : Type := vec2 -> vec4.

Definition texture2D (s : sampler2D) (uv : vec2) : vec4 := s uv.

(** ** The simulation fragment shader *)

Definition deltaBase : R := 0.72.

(** [main] of [simulationFragmentShader]; the uniforms are arguments and the
    result is the value written to [gl_FragColor].  Each reassignment of
    [pressure] and [pVel] is a fresh binder, in source order. *)
Definition simulationFragmentShader
    (textureA : sampler2D) (mouse resolution : vec2) (time : R) (frame : Z)
    (vUv : vec2) : vec4 :=
  let uv := vUv in
  if (frame =? 0)%Z then vec4_splat 0.0 else
  let data := texture2D textureA uv in
  let pressure := v4x data in
  let pVel := v4y data in
  let isMobile := step 500.0 (v2x resolution) in
  let scale := mix 2.0 8.0 isMobile in
  let texelSize := scalar_div_vec2 scale resolution in
  let delta := deltaBase * mix 0.6 1.0 isMobile in
  let offset := Vec2 (v2x texelSize) 0.0 in
  let left := v4x (texture2D textureA (vec2_sub uv offset)) in
  let right := v4x (texture2D textureA (vec2_add uv offset)) in
  let up := right in
  let down := left in
  let dH := right + left - 2.0 * pressure in
  let dV := up + down - 2.0 * pressure in
  let pVel1 := pVel + delta * 0.25 * (dH + dV) in
  let pressure1 := pressure + delta * pVel1 in
  let pVel2 := pVel1 - 0.005 * delta * pressure1 in
  let pVel3 := pVel2 * (1.0 - 0.002 * delta) in
  let pressure2 := pressure1 * 0.999 in
  let pressure3 :=
    if (frame <? 2)%Z then
      let deltaUV := vec2_sub_scalar uv 0.5 in
      let distSq := dot deltaUV deltaUV in
      if Rlt_dec distSq 0.25
      then pressure2 + 2.5 * (1.0 - distSq * 2.0)
      else pressure2
    else pressure2 in
  let pressure4 :=
    if Rlt_dec 0.0 (v2x mouse) then
      let mouseUV := vec2_div mouse resolution in
      let diff := vec2_sub uv mouseUV in
      let distSq := dot diff diff in
      if Rlt_dec distSq 0.0004 then
        let dist := sqrt distSq in
        let softness := smoothstep 0.02 0.005 dist in
        pressure3 + 1.2 * softness
      else pressure3
    else pressure3 in
  Vec4 pressure4 pVel3 ((right - left) * 0.5) ((up - down) * 0.5).

(** ** The presentation fragment shader *)

Definition customGreen : vec3 := Vec3 0.7 1.0 0.3.
Definition customBlue : vec3 := Vec3 1.0 0.5 0.6.

(** [normal = normalize(vec3(-data.z, 0.2, -data.w))]. *)
Definition renderNormal (data : vec4) : vec3 :=
  normalize (Vec3 (- v4z data) 0.2 (- v4w data)).

(** [timeOffset = 0.00014 * vec2(sin(t), sin(t * 0.43))] with [t = time * 3.0]. *)
Definition renderTimeOffset (time : R) : vec2 :=
  let t := time * 3.0 in
  vec2_scale 0.00014 (Vec2 (sin t) (sin (t * 0.43))).

(** [offset = normal.xz]. *)
Definition renderOffset (data : vec4) : vec2 :=
  let normal := renderNormal data in
  Vec2 (v3x normal) (v3z normal).

Definition renderOffsetG (data : vec4) (time : R) : vec2 :=
  vec2_sub (vec2_scale 0.024 (renderOffset data)) (renderTimeOffset time).

Definition renderOffsetB (data : vec4) (time : R) : vec2 :=
  vec2_add (vec2_scale 0.022 (renderOffset data)) (renderTimeOffset time).

Definition renderFragmentShader (textureA : sampler2D) (time : R) (vUv : vec2) : vec4 :=
  let data := texture2D textureA vUv in
  let offsetG := renderOffsetG data time in
  let offsetB := renderOffsetB data time in
  let g := v4y (texture2D textureA (vec2_add vUv offsetG)) in
  let b := v4z (texture2D textureA (vec2_add vUv offsetB)) in
  let rippleColor :=
    Vec3 (g * v3x customGreen + b * v3x customBlue)
         (g * v3y customGreen + b * v3y customBlue)
         (g * v3z customGreen + b * v3z customBlue) in
  let alpha := Rmax g b * 0.9 in
  Vec4 (v3x rippleColor) (v3y rippleColor) (v3z rippleColor) alpha.

(** ** Render targets

    [new THREE.WebGLRenderTarget(w, h, options)] with
    [minFilter = magFilter = LinearFilter] and the wrap mode three.js gives a
    render target when none is passed, clamp to edge.  A target is its size
    and its texels; reading it through a sampler interpolates the four
    texels around the sample point, the indices clamped to the grid. *)

Record RenderTarget : Type := mkRenderTarget {
  rt_width : Z;
  rt_height : Z;
  rt_texels : Z -> Z -> vec4
}.

Definition clampZ (i lo hi : Z) : Z := Z.min (Z.max i lo) hi.

Definition rt_texture (rt : RenderTarget) : sampler2D :=
  fun uv =>
    let x := v2x uv * IZR (rt_width rt) - 0.5 in
    let y := v2y uv * IZR (rt_height rt) - 0.5 in
    let i0 := Zfloor x in
    let j0 := Zfloor y in
    let fx := x - IZR i0 in
    let fy := y - IZR j0 in
    let texel i j :=
      rt_texels rt (clampZ i 0 (rt_width rt - 1)) (clampZ j 0 (rt_height rt - 1)) in
    mix4 (mix4 (texel i0 j0) (texel (i0 + 1)%Z j0) fx)
         (mix4 (texel i0 (j0 + 1)%Z) (texel (i0 + 1)%Z (j0 + 1)%Z) fx)
         fy.

(** The varying [vUv] of the full-screen quad at the centre of fragment
    [(i, j)] of a [w] by [h] target. *)
Definition fragUv (w h i j : Z) : vec2 :=
  Vec2 ((IZR i + 0.5) / IZR w) ((IZR j + 0.5) / IZR h).

(** [renderer.setRenderTarget(rt); renderer.render(scene, camera)]: every
    fragment of the target receives the shader's value at its own [vUv]. *)
Definition renderInto (shader : vec2 -> vec4) (rt : RenderTarget) : RenderTarget :=
  {| rt_width := rt_width rt;
     rt_height := rt_height rt;
     rt_texels := fun i j => shader (fragUv (rt_width rt) (rt_height rt) i j) |}.

(** [rt.setSize(w, h)]: the storage is reallocated; what it holds afterwards
    is not fixed by the page, so it is an argument. *)
Definition setSize (w h : Z) (fresh : Z -> Z -> vec4) (rt : RenderTarget) : RenderTarget :=
  {| rt_width := w; rt_height := h; rt_texels := fresh |}.

(** ** The driver: the [DOMContentLoaded] closure and its listeners *)

Record DOMRect : Type := mkDOMRect {
  rect_left : Q;
  rect_top : Q;
  rect_width : Q;
  rect_height : Q
}.

(** The variables the closure captures.  [simWidth] and [simHeight] are the
    [const]s of lines 159-160; [uMouse], [uResolution], [uTime] and [uFrame]
    are the uniforms of [simMaterial]; [screen] is the image of the last
    presentation pass. *)
Record Session : Type := mkSession {
  isMobile : bool;
  dpr : Q;
  width : Z;
  height : Z;
  simResFactor : Z;
  simWidth : Z;
  simHeight : Z;
  rtA : RenderTarget;
  rtB : RenderTarget;
  uMouse : Q * Q;
  uResolution : Z * Z;
  uTime : Q;
  uFrame : Z;
  frame : Z;
  lastTouchTime : Q;
  screen : vec2 -> vec4
}.

Definition vec2_of_Q (p : Q * Q) : vec2 := Vec2 (Q2R (fst p)) (Q2R (snd p)).
Definition vec2_of_Z (p : Z * Z) : vec2 := Vec2 (IZR (fst p)) (IZR (snd p)).

(** The simulation pass as [simMaterial] runs it: the shader applied to the
    uniforms currently stored in the session. *)
Definition simPass (s : Session) (textureA : RenderTarget) : vec2 -> vec4 :=
  simulationFragmentShader (rt_texture textureA)
    (vec2_of_Q (uMouse s)) (vec2_of_Z (uResolution s)) (Q2R (uTime s)) (uFrame s).

(** *** JavaScript arithmetic in front of [Math.floor]

    A JavaScript [*] or [/] returns the double nearest to the exact result,
    ties going to the even significand.  [round64] is that rounding on the
    rationals: a 53-bit significand and an exponent, which is not bounded
    here (overflow and subnormal numbers are far from any viewport size). *)

(** The integer nearest to [N / D], ties to the even one. *)
Definition roundHalfEven (N : Z) (D : positive) : Z :=
  let q := (N / Zpos D)%Z in
  let r := (N mod Zpos D)%Z in
  match (2 * r ?= Zpos D)%Z with
  | Lt => q
  | Gt => (q + 1)%Z
  | Eq => if Z.even q then q else (q + 1)%Z
  end.

(** [floor (log2 (n / d))]. *)
Definition binade (n d : positive) : Z :=
  if (Zpos d <=? Zpos n)%Z
  then Z.log2 (Zpos n / Zpos d)
  else (- Z.log2_up ((Zpos d + Zpos n - 1) / Zpos n))%Z.

(** The double nearest to [n / d]: the significand is [n / d] scaled into
    [2^52, 2^53) and rounded, [e] is the exponent of its last bit. *)
Definition roundPos (n d : positive) : Q :=
  let e := (binade n d - 52)%Z in
  match e with
  | Z0 => inject_Z (roundHalfEven (Zpos n) d)
  | Zpos p => inject_Z (roundHalfEven (Zpos n) (d * 2 ^ p) * 2 ^ Zpos p)
  | Zneg p => (roundHalfEven (Zpos n * 2 ^ Zpos p) d # 2 ^ p)%Q
  end.

Definition round64 (x : Q) : Q :=
  match Qnum x with
  | Z0 => 0%Q
  | Zpos n => roundPos n (Qden x)
  | Zneg n => (- roundPos n (Qden x))%Q
  end.

Arguments round64 : simpl never.

(** [a * b] and [a / b] on JavaScript numbers. *)
Definition js_mul (a b : Q) : Q := round64 (a * b).
Definition js_div (a b : Q) : Q := round64 (a / b).

(** Lines 152-208: the state right after start-up.  [contentsA] and
    [contentsB] stand for whatever the freshly allocated targets hold;
    [devicePixelRatio] is the value of that double. *)
Definition startup (innerWidth innerHeight : Z) (devicePixelRatio : Q)
    (contentsA contentsB : Z -> Z -> vec4) : Session :=
  let isMobile := (innerWidth <? 768)%Z in
  let dpr := if isMobile then 1.25%Q else Qmin devicePixelRatio 2 in
  let width := Qfloor (js_mul (inject_Z innerWidth) dpr) in
  let height := Qfloor (js_mul (inject_Z innerHeight) dpr) in
  let simResFactor := if isMobile then 3%Z else 2%Z in
  let simWidth := Qfloor (js_div (inject_Z width) (inject_Z simResFactor)) in
  let simHeight := Qfloor (js_div (inject_Z height) (inject_Z simResFactor)) in
  {| isMobile := isMobile;
     dpr := dpr;
     width := width;
     height := height;
     simResFactor := simResFactor;
     simWidth := simWidth;
     simHeight := simHeight;
     rtA := mkRenderTarget simWidth simHeight contentsA;
     rtB := mkRenderTarget simWidth simHeight contentsB;
     uMouse := ((-10)%Q, (-10)%Q);
     uResolution := (simWidth, simHeight);
     uTime := 0%Q;
     uFrame := 0%Z;
     frame := 0%Z;
     lastTouchTime := 0%Q;
     screen := fun _ => vec4_splat 0 |}.

Definition set_mouse (m : Q * Q) (s : Session) : Session :=
  {| isMobile := isMobile s; dpr := dpr s; width := width s; height := height s;
     simResFactor := simResFactor s; simWidth := simWidth s; simHeight := simHeight s;
     rtA := rtA s; rtB := rtB s;
     uMouse := m;
     uResolution := uResolution s; uTime := uTime s; uFrame := uFrame s;
     frame := frame s; lastTouchTime := lastTouchTime s; screen := screen s |}.

Definition set_lastTouchTime (t : Q) (s : Session) : Session :=
  {| isMobile := isMobile s; dpr := dpr s; width := width s; height := height s;
     simResFactor := simResFactor s; simWidth := simWidth s; simHeight := simHeight s;
     rtA := rtA s; rtB := rtB s;
     uMouse := uMouse s;
     uResolution := uResolution s; uTime := uTime s; uFrame := uFrame s;
     frame := frame s; lastTouchTime := t; screen := screen s |}.

(** Lines 212-222.  [simWidth] and [simHeight] are the variables visible
    from this function: the closure's [const]s. *)
Definition updateMousePosition (clientX clientY : Q) (rect : DOMRect) (s : Session) : Session :=
  let x := ((clientX - rect_left rect) / rect_width rect)%Q in
  let y := (1 - (clientY - rect_top rect) / rect_height rect)%Q in
  let x := (x * inject_Z (simWidth s))%Q in
  let y := (y * inject_Z (simHeight s))%Q in
  set_mouse (x, y) s.

(** Lines 225-233; [touches] lists the [(clientX, clientY)] of [e.touches]. *)
Definition handleTouchMove (now : Q) (touches : list (Q * Q)) (rect : DOMRect)
    (s : Session) : Session :=
  if Qlt_le_dec (now - lastTouchTime s) 16 then s else
  let s := set_lastTouchTime now s in
  match touches with
  | (clientX, clientY) :: _ => updateMousePosition clientX clientY rect s
  | [] => s
  end.

(** Lines 243-248. *)
Definition handleTouchStart (touches : list (Q * Q)) (rect : DOMRect) (s : Session) : Session :=
  match touches with
  | (clientX, clientY) :: _ => updateMousePosition clientX clientY rect s
  | [] => s
  end.

(** Lines 239-241 and 251-253: [mouseleave] and [touchend]. *)
Definition pointerOff (s : Session) : Session := set_mouse ((-10)%Q, (-10)%Q) s.

(** Lines 256-269.  The [simWidth] and [simHeight] declared here are local
    to the listener: the closure's [const]s of the same name keep their
    start-up values. *)
Definition resize (innerWidth innerHeight : Z) (freshA freshB : Z -> Z -> vec4)
    (s : Session) : Session :=
  let width' := Qfloor (js_mul (inject_Z innerWidth) (dpr s)) in
  let height' := Qfloor (js_mul (inject_Z innerHeight) (dpr s)) in
  let simWidth' := Qfloor (js_div (inject_Z width') (inject_Z (simResFactor s))) in
  let simHeight' := Qfloor (js_div (inject_Z height') (inject_Z (simResFactor s))) in
  {| isMobile := isMobile s; dpr := dpr s;
     width := width'; height := height';
     simResFactor := simResFactor s; simWidth := simWidth s; simHeight := simHeight s;
     rtA := setSize simWidth' simHeight' freshA (rtA s);
     rtB := setSize simWidth' simHeight' freshB (rtB s);
     uMouse := uMouse s;
     uResolution := (simWidth', simHeight');
     uTime := uTime s; uFrame := uFrame s;
     frame := 0%Z;
     lastTouchTime := lastTouchTime s; screen := screen s |}.

(** Lines 272-289: one turn of the animation loop.  [now1] and [now2] are the
    two readings of [performance.now()]. *)
Definition animate (now1 now2 : Q) (s : Session) : Session :=
  let s1 :=
    {| isMobile := isMobile s; dpr := dpr s; width := width s; height := height s;
       simResFactor := simResFactor s; simWidth := simWidth s; simHeight := simHeight s;
       rtA := rtA s; rtB := rtB s;
       uMouse := uMouse s; uResolution := uResolution s;
       uTime := (now1 / 1000)%Q;
       uFrame := frame s;
       frame := (frame s + 1)%Z;
       lastTouchTime := lastTouchTime s; screen := screen s |} in
  let written := renderInto (simPass s1 (rtA s1)) (rtB s1) in
  let shown := renderFragmentShader (rt_texture written) (Q2R (now2 / 1000)) in
  {| isMobile := isMobile s1; dpr := dpr s1; width := width s1; height := height s1;
     simResFactor := simResFactor s1; simWidth := simWidth s1; simHeight := simHeight s1;
     rtA := written; rtB := rtA s1;
     uMouse := uMouse s1; uResolution := uResolution s1;
     uTime := uTime s1; uFrame := uFrame s1;
     frame := frame s1;
     lastTouchTime := lastTouchTime s1; screen := shown |}.

(** What the browser can deliver to the page. *)
Inductive Event : Type :=
| AnimationFrame (now1 now2 : Q)
| MouseMove (clientX clientY : Q) (rect : DOMRect)
| MouseLeave
| TouchStart (touches : list (Q * Q)) (rect : DOMRect)
| TouchMove (now : Q) (touches : list (Q * Q)) (rect : DOMRect)
| TouchEnd
| ResizeEvent (innerWidth innerHeight : Z) (freshA freshB : Z -> Z -> vec4).

Definition handle (e : Event) (s : Session) : Session :=
  match e with
  | AnimationFrame now1 now2 => animate now1 now2 s
  | MouseMove clientX clientY rect => updateMousePosition clientX clientY rect s
  | MouseLeave => pointerOff s
  | TouchStart touches rect => handleTouchStart touches rect s
  | TouchMove now touches rect => handleTouchMove now touches rect s
  | TouchEnd => pointerOff s
  | ResizeEvent innerWidth innerHeight freshA freshB =>
      resize innerWidth innerHeight freshA freshB s
  end.

(** The session after a list of events, oldest first. *)
Definition run (es : list Event) (s : Session) : Session :=
  fold_left (fun acc e => handle e acc) es s.

(** The states a page can be in: start-up followed by events. *)
Inductive reachable : Session -> Prop :=
| reachable_startup : forall innerWidth innerHeight devicePixelRatio contentsA contentsB,
    reachable (startup innerWidth innerHeight devicePixelRatio contentsA contentsB)
| reachable_handle : forall e s, reachable s -> reachable (handle e s).

(** ** The update rule in the words of the specification

    These definitions follow the specification's text (section 4.1); the
    theorems below compare them with the shader. *)

(** The shader's own tier: high when the field is at least 500 texels wide. *)
Definition spec_highTier (fieldResolution : vec2) : bool :=
  if Rlt_dec (v2x fieldResolution) 500 then false else true.

(** [scale]: 2 on the low tier, 8 on the high tier. *)
Definition spec_scale (fieldResolution : vec2) : R :=
  if spec_highTier fieldResolution then 8 else 2.

(** [delta = deltaBase(0.72) * tierFactor], the factor 0.6 on the low tier
    and 1.0 on the high tier. *)
Definition spec_delta (fieldResolution : vec2) : R :=
  0.72 * (if spec_highTier fieldResolution then 1.0 else 0.6).

(** The height samples at horizontal offset [scale / fieldResolution]. *)
Definition spec_left (field : sampler2D) (fieldResolution uv : vec2) : R :=
  v4x (field (Vec2 (v2x uv - spec_scale fieldResolution / v2x fieldResolution) (v2y uv))).

Definition spec_right (field : sampler2D) (fieldResolution uv : vec2) : R :=
  v4x (field (Vec2 (v2x uv + spec_scale fieldResolution / v2x fieldResolution) (v2y uv))).

(** Steps 1 to 4 of the update rule; the result is (height, velocity). *)
Definition spec_wave_update (delta height velocity left right : R) : R * R :=
  let up_approx := right in
  let down_approx := left in
  let laplacianApprox :=
    (right + left - 2 * height) + (up_approx + down_approx - 2 * height) in
  let velocity1 := velocity + delta * 0.25 * laplacianApprox in
  let height1 := height + delta * velocity1 in
  let velocity2 := velocity1 - 0.005 * delta * height1 in
  let velocity3 := velocity2 * (1 - 0.002 * delta) in
  let height2 := height1 * 0.999 in
  (height2, velocity3).

(** The update rule applied at one texel of a field. *)
Definition spec_step (field : sampler2D) (fieldResolution uv : vec2) : R * R :=
  spec_wave_update (spec_delta fieldResolution)
    (v4x (field uv)) (v4y (field uv))
    (spec_left field fieldResolution uv) (spec_right field fieldResolution uv).

(** Squared distance, in normalised coordinates, to the field midpoint. *)
Definition centreDistSq (uv : vec2) : R :=
  (v2x uv - 0.5) * (v2x uv - 0.5) + (v2y uv - 0.5) * (v2y uv - 0.5).

(** The start-up impulse: [2.5 * (1 - 2*distSq)] within squared distance 0.25
    of the centre while [frameIndex < 2]. *)
Definition spec_startImpulse (frameIndex : Z) (uv : vec2) : R :=
  if (frameIndex <? 2)%Z then
    if Rlt_dec (centreDistSq uv) 0.25 then 2.5 * (1 - 2 * centreDistSq uv) else 0
  else 0.

(** Squared distance, in normalised coordinates, to the pointer. *)
Definition pointerDistSq (pointerPosition fieldResolution uv : vec2) : R :=
  (v2x uv - v2x pointerPosition / v2x fieldResolution)
    * (v2x uv - v2x pointerPosition / v2x fieldResolution)
  + (v2y uv - v2y pointerPosition / v2y fieldResolution)
    * (v2y uv - v2y pointerPosition / v2y fieldResolution).

(** The interactive forcing of an on-field pointer ([x > 0]). *)
Definition spec_pointerImpulse (pointerPosition fieldResolution uv : vec2) : R :=
  if Rlt_dec 0 (v2x pointerPosition) then
    if Rlt_dec (pointerDistSq pointerPosition fieldResolution uv) 0.0004
    then 1.2 * smoothstep 0.02 0.005 (sqrt (pointerDistSq pointerPosition fieldResolution uv))
    else 0
  else 0.

(** The claim of C2 at one texel: height and velocity written by the shader
    are exactly those of the update rule. *)
Definition wave_update_only (field : sampler2D) (mouse resolution : vec2)
    (time : R) (frameIndex : Z) (uv : vec2) : Prop :=
  let out := simulationFragmentShader field mouse resolution time frameIndex uv in
  (v4x out, v4y out) = spec_step field resolution uv.

(** What the pointer adds to a texel's height in one step: the difference
    between the step with the given pointer and the same step with the
    off-field sentinel. *)
Definition pointerContribution (field : sampler2D) (mouse resolution : vec2)
    (time : R) (frameIndex : Z) (uv : vec2) : R :=
  v4x (simulationFragmentShader field mouse resolution time frameIndex uv)
  - v4x (simulationFragmentShader field (Vec2 (-10) (-10)) resolution time frameIndex uv).

(** The claim of C5 for one pair of texels: the one nearer the centre is at
    least as high as the farther one. *)
Definition nearer_is_higher (field : sampler2D) (mouse resolution : vec2)
    (time : R) (frameIndex : Z) (near far : vec2) : Prop :=
  v4x (simulationFragmentShader field mouse resolution time frameIndex far)
  <= v4x (simulationFragmentShader field mouse resolution time frameIndex near).

(** The claim of C6 at one texel: nothing from the pointer at distance 0.02
    or more, the smoothstep-weighted impulse within it. *)
Definition pointer_forcing_local (field : sampler2D) (mouse resolution : vec2)
    (time : R) (frameIndex : Z) (uv : vec2) : Prop :=
  (0.0004 <= pointerDistSq mouse resolution uv ->
     pointerContribution field mouse resolution time frameIndex uv = 0)
  /\ (pointerDistSq mouse resolution uv < 0.0004 ->
        pointerContribution field mouse resolution time frameIndex uv
        = 1.2 * smoothstep 0.02 0.005 (sqrt (pointerDistSq mouse resolution uv))).

(** The [x] and [y] components of a [vec2] agree: it lies on the diagonal. *)
Definition on_diagonal (a : vec2) : Prop := v2x a = v2y a.

(** ** The driver in the words of the specification *)

Definition dims (rt : RenderTarget) : Z * Z := (rt_width rt, rt_height rt).

Definition is_resize (e : Event) : bool :=
  match e with
  | ResizeEvent _ _ _ _ => true
  | _ => false
  end.

(** The simulation resolution of a viewport:
    [floor(inner * dpr / simResFactor)] in each direction. *)
Definition spec_simResolution (innerWidth innerHeight : Z) (dpr : Q) (simResFactor : Z)
    : Z * Z :=
  (Qfloor (inject_Z innerWidth * dpr / inject_Z simResFactor),
   Qfloor (inject_Z innerHeight * dpr / inject_Z simResFactor)).

(** The resolution as lines 257-261 (and 154-160) compute it:
    [Math.floor(Math.floor(inner * dpr) / simResFactor)] in JavaScript
    arithmetic. *)
Definition computed_simResolution (innerWidth innerHeight : Z) (dpr : Q)
    (simResFactor : Z) : Z * Z :=
  (Qfloor (js_div (inject_Z (Qfloor (js_mul (inject_Z innerWidth) dpr)))
                  (inject_Z simResFactor)),
   Qfloor (js_div (inject_Z (Qfloor (js_mul (inject_Z innerHeight) dpr)))
                  (inject_Z simResFactor))).

(** The coordinate mapping of section 4.4. *)
Definition spec_pointerMapping (clientX clientY : Q) (surface : DOMRect)
    (fieldWidth fieldHeight : Z) : Q * Q :=
  (((clientX - rect_left surface) / rect_width surface * inject_Z fieldWidth)%Q,
   ((1 - (clientY - rect_top surface) / rect_height surface) * inject_Z fieldHeight)%Q).

(** The values the simulation pass binds to [scale] and to the factor of
    [delta] when it runs on the session's [resolution] uniform. *)
Definition tier_scale (s : Session) : R :=
  mix 2.0 8.0 (step 500.0 (v2x (vec2_of_Z (uResolution s)))).

Definition tier_deltaFactor (s : Session) : R :=
  mix 0.6 1.0 (step 500.0 (v2x (vec2_of_Z (uResolution s)))).

(** ** The end-to-end scenario of the specification *)

(** A session the scenario can start from, [k] turns of the loop later: both
    targets and the [resolution] uniform are 100 by 100, the pointer is the
    off-field sentinel and the frame counter is [k]. *)
Definition scenario (k : Z) (s : Session) : Prop :=
  dims (rtA s) = (100%Z, 100%Z) /\ dims (rtB s) = (100%Z, 100%Z)
  /\ uResolution s = (100%Z, 100%Z)
  /\ uMouse s = ((-10)%Q, (-10)%Q)
  /\ frame s = k.

(** Turns of the animation loop, given the clock readings of each. *)
Definition frames (ts : list (Q * Q)) : list Event :=
  map (fun t => AnimationFrame (fst t) (snd t)) ts.

(** A clock that ticks every 16 ms. *)
Definition clock (n : nat) : list (Q * Q) :=
  map (fun k => (inject_Z (16 * Z.of_nat k), inject_Z (16 * Z.of_nat k))) (seq 0 n).

(** The last clause of the scenario: every height of the field last written
    is below 1e-3 in absolute value. *)
Definition settled (s : Session) : Prop :=
  forall i j, (0 <= i < 100)%Z -> (0 <= j < 100)%Z ->
    Rabs (v4x (rt_texels (rtA s) i j)) < 0.001.

(** Heights and velocities of row [j] of a target. *)
Definition Hrow (rt : RenderTarget) (j i : Z) : R := v4x (rt_texels rt i j).
Definition Vrow (rt : RenderTarget) (j i : Z) : R := v4y (rt_texels rt i j).

(** A weighting of the 100 texels of a row under which the clamped
    neighbour differences sum to zero: 50, 1, 49, 2, ..., 1, 50. *)
Definition rowWeight (i : Z) : Z :=
  if Z.even i then (50 - i / 2)%Z else ((i + 1) / 2)%Z.

Definition rowIndices : list Z := map Z.of_nat (seq 0 100).

Definition wsumOver (l : list Z) (f : Z -> R) : R :=
  fold_right (fun i acc => IZR (rowWeight i) * f i + acc) 0 l.

Definition wsum (f : Z -> R) : R := wsumOver rowIndices f.

Definition rowHeightSum (j : Z) (s : Session) : R := wsum (Hrow (rtA s) j).
Definition rowVelocitySum (j : Z) (s : Session) : R := wsum (Vrow (rtA s) j).

(** The two weighted sums of row 50 as integers over a common power of ten:
    one step of the update rule with [delta = 0.432] on the numerators. *)
Definition zstep (p : Z * Z) : Z * Z :=
  let (A, B) := p in
  let C := (1000 * A + 432 * B)%Z in
  (99900000000 * C, 999136 * (100000000 * B - 216 * C))%Z.

Fixpoint zrec (n : nat) : Z * Z :=
  match n with
  | O => (52914625%Z, 0%Z)
  | S n' => zstep (zrec n')
  end.

Definition zscale (n : nat) : Z := (10000 * 100000000000000 ^ Z.of_nat n)%Z.

(** The same recurrence on machine-word integers, for evaluation. *)
Definition bzstep (p : bigZ * bigZ) : bigZ * bigZ :=
  let (A, B) := p in
  let C := (1000 * A + 432 * B)%bigZ in
  (99900000000 * C, 999136 * (100000000 * B - 216 * C))%bigZ.

Fixpoint bzrec (n : nat) : bigZ * bigZ :=
  match n with
  | O => (52914625%bigZ, 0%bigZ)
  | S n' => bzstep (bzrec n')
  end.

Definition bzscale (n : nat) : bigZ :=
  (10000 * 100000000000000 ^ BigZ.of_Z (Z.of_nat n))%bigZ.

Definition rowInv (n : nat) (s : Session) : Prop :=
  scenario (2 + Z.of_nat n) s
  /\ rowHeightSum 50 s = IZR (fst (zrec n)) / IZR (zscale n)
  /\ rowVelocitySum 50 s = IZR (snd (zrec n)) / IZR (zscale n).

(** ** Concrete pages and inputs used in the examples *)

(** A target whose texels are all (0, 0, 0, 0). *)
Definition cleared : Z -> Z -> vec4 := fun _ _ => vec4_splat 0.

(** A sampler that returns (0, 0, 0, 0) everywhere. *)
Definition clearedField : sampler2D := fun _ => Vec4 0 0 0 0.

(** A phone-sized page, 240 by 240 pixels: the field is 100 by 100. *)
Definition phonePage : Session := startup 240 240 1 cleared cleared.

(** A desktop page 1200 by 800 pixels at pixel ratio 1: the field is 600 by 400. *)
Definition desktopPage : Session := startup 1200 800 1 cleared cleared.

(** A desktop page 1000 by 800 pixels at pixel ratio 1: the field is 500 by 400. *)
Definition smallDesktopPage : Session := startup 1000 800 1 cleared cleared.

(** The double written [1.15]: 5179139571476070 / 2^52. *)
Definition dpr115 : Q := 5179139571476070 # 4503599627370496.

(** A desktop page 1000 by 800 pixels zoomed to pixel ratio 1.15. *)
Definition zoomedPage : Session := startup 1000 800 dpr115 cleared cleared.

(** The texel the simulation step writes at the centre of a cleared 100 by
    100 field at [frame = 1] with the pointer off the field. *)
Definition centreTexelAtFrame1 : vec4 :=
  simulationFragmentShader clearedField (Vec2 (-10) (-10)) (Vec2 100 100) 0 1 (Vec2 0.5 0.5).

(** ** Combinations of fields, and the pointer events

    [scaleField k field] is the field with every channel multiplied by [k]. *)
Definition scaleField (k : R) (field : sampler2D) : sampler2D :=
  fun p => Vec4 (k * v4x (field p)) (k * v4y (field p)) (k * v4z (field p)) (k * v4w (field p)).

(** The pointwise sum of two fields. *)
Definition addField (f g : sampler2D) : sampler2D :=
  fun p => Vec4 (v4x (f p) + v4x (g p)) (v4y (f p) + v4y (g p))
                (v4z (f p) + v4z (g p)) (v4w (f p) + v4w (g p)).

(** [field] with its height channel replaced by [h]. *)
Definition withHeight (h : vec2 -> R) (field : sampler2D) : sampler2D :=
  fun p => Vec4 (h p) (v4y (field p)) (v4z (field p)) (v4w (field p)).

(** The events of the pointer listeners (lines 235-253), as opposed to the
    animation frame and the resize. *)
Definition is_pointer_event (e : Event) : bool :=
  match e with
  | AnimationFrame _ _ | ResizeEvent _ _ _ _ => false
  | _ => true
  end.

(** ** The letter effect of [applyTextEffects] (lines 303-352) *)

(** The inline style [handleMouseMove] gives one letter.  The numbers are
    the ones interpolated into the style strings: stroke width and margin in
    pixels, the ['wght'] axis, the scale factor; [textShadow] is [None] for
    ["none"] and otherwise the intensity the three shadow layers share. *)
Record LetterStyle : Type := mkLetterStyle {
  webkitTextStrokeWidth : Z;
  wght : Q;
  scaleSize : Q;
  marginRight : Z;
  textShadow : option Q
}.

(** The body of the [spans.forEach] callback, lines 321-347. *)
Definition letterStyle (mouseX mouseY : Q) (screenWidth screenHeight : Z)
    (letterRect : DOMRect) (index spansLength : nat) : LetterStyle :=
  let middleScreenX := (inject_Z screenWidth / 2)%Q in
  let middleScreenY := (inject_Z screenHeight / 2)%Q in
  let letterCenterX := (rect_left letterRect + rect_width letterRect / 2)%Q in
  let letterCenterY := (rect_top letterRect + rect_height letterRect / 2)%Q in
  let distanceFromMouseX := Qabs.Qabs (letterCenterX - mouseX) in
  let distanceFromMouseY := Qabs.Qabs (letterCenterY - mouseY) in
  let strokeThickness :=
    (Qfloor ((middleScreenX - distanceFromMouseX) / middleScreenX * 8) + 1)%Z in
  let finalStroke := Z.min 9 (Z.max 1 strokeThickness) in
  let weight :=
    (Qfloor ((middleScreenY - distanceFromMouseY) / middleScreenY * 400) + 100)%Z in
  let offset :=
    (inject_Z (Z.of_nat index) / inject_Z (Z.of_nat spansLength) * 300)%Q in
  let scaleSize := (1 + inject_Z finalStroke / 30)%Q in
  let spacing := (finalStroke * 1)%Z in
  let shadowIntensity :=
    Qmax 0 ((middleScreenX - distanceFromMouseX) / middleScreenX) in
  {| webkitTextStrokeWidth := finalStroke;
     wght := Qmin 400 (Qmax 100 (inject_Z weight + offset));
     scaleSize := scaleSize;
     marginRight := spacing;
     textShadow :=
       if Qlt_le_dec 0.1 shadowIntensity then Some shadowIntensity else None |}.

(** What [applyTextEffects] keeps between events: [lastUpdate] and the
    inline styles of the letters, [None] for a letter never styled. *)
Record TextEffects : Type := mkTextEffects {
  lastUpdate : Q;
  letterStyles : list (option LetterStyle)
}.

(** [handleMouseMove], lines 309-349.  [now1] and [now2] are the two readings
    of [performance.now()], [letterRects] the bounding rectangles of the
    spans at the time of the event. *)
Definition handleMouseMove (now1 now2 : Q) (clientX clientY : Q)
    (innerWidth innerHeight : Z) (letterRects : list DOMRect)
    (st : TextEffects) : TextEffects :=
  if Qlt_le_dec (now1 - lastUpdate st) 50 then st else
  {| lastUpdate := now2;
     letterStyles :=
       map (fun ir => Some (letterStyle clientX clientY innerWidth innerHeight
                              (snd ir) (fst ir) (length letterRects)))
           (combine (seq 0 (length letterRects)) letterRects) |}.

(** The horizontal distance the callback measures. *)
Definition letterDistanceX (mouseX : Q) (letterRect : DOMRect) : Q :=
  Qabs.Qabs (rect_left letterRect + rect_width letterRect / 2 - mouseX).

(** ** The page effects outside the simulation (lines 483-494 and 530-652)

    Class lists, inline styles and timers of the elements these listeners
    touch; the elements the page looks up ([.bio], [#boall], [#bo], the
    [.boagrid] items) are taken to exist.  A [classList] is the ordered
    token set of the DOM: [add] appends a token that is not there yet,
    [remove] deletes it. *)

Module Dom.
Import String.

Definition classList : Type := list string.

Definition contains (c : string) (l : classList) : bool := existsb (String.eqb c) l.

Definition add (c : string) (l : classList) : classList :=
  if contains c l then l else l ++ [c].

Definition remove (c : string) (l : classList) : classList :=
  filter (fun x => negb (String.eqb c x)) l.

(** [classList[i]], [None] for [undefined]. *)
Definition item (i : nat) (l : classList) : option string := nth_error l i.

(** The inline style of [#boall] that the grid listeners write; a property
    never written is the empty string. *)
Record GridStyle : Type := mkGridStyle {
  transition : string;
  gridTemplateRows : string;
  gridTemplateColumns : string
}.

Definition setTemplates (rows columns : string) (g : GridStyle) : GridStyle :=
  {| transition := transition g;
     gridTemplateRows := rows;
     gridTemplateColumns := columns |}.

(** Lines 577-581. *)
Definition resetGrid (g : GridStyle) : GridStyle :=
  {| transition := "all 0.3s ease";
     gridTemplateRows := "1fr 0.5fr 1fr";
     gridTemplateColumns := "1fr 0.5fr 1fr" |}.

(** Lines 541-575: the [switch] on [hoveredItem.classList[1]]. *)
Definition applyHoverEffect (hoveredItem : classList) (g : GridStyle) : GridStyle :=
  match item 1 hoveredItem with
  | Some c =>
      if (c =? "a")%string then setTemplates "1fr 1fr 4fr" "1fr 0.5fr 2fr" g
      else if (c =? "b")%string then setTemplates "2fr 1fr 1fr" "0.5fr 0.5fr 1fr" g
      else if (c =? "c")%string then setTemplates "1fr 0.5fr 1fr" "1fr 1fr 1fr" g
      else if (c =? "d")%string then setTemplates "2fr 1fr 1fr" "1fr 0.5fr 1fr" g
      else if (c =? "e")%string then setTemplates "0.5fr 2fr 1fr" "0.1fr 0.5fr 1fr" g
      else if (c =? "g")%string then setTemplates "1fr 1fr 2fr" "1fr 0.25fr 1fr" g
      else if (c =? "f")%string then setTemplates "1fr 0.5fr 1fr" "1fr 0.5fr 1fr" g
      else resetGrid g
  | None => resetGrid g
  end.

(** Lines 612-624. *)
Definition handleGridVisibility (innerWidth : Z) (gridItems : list classList)
    : list classList :=
  if (innerWidth <=? 1024)%Z
  then map (add "visible") gridItems
  else map (remove "visible") gridItems.

(** A pending [setTimeout(() => item.classList.add("visible"), delay)] for
    the grid item of index [target]. *)
Record Timer : Type := mkTimer {
  delay : Z;
  target : nat
}.

(** Lines 640-652: the items after the loop and the timers it set, in the
    order they were set. *)
Definition revealGrid (innerWidth : Z) (gridItems : list classList)
    : list classList * list Timer :=
  fold_left
    (fun (acc : list classList * list Timer) (ii : nat * classList) =>
       let (index, it) := ii in
       if (innerWidth <=? 1024)%Z
       then (fst acc ++ [add "visible" it], snd acc)
       else (fst acc ++ [it],
             snd acc ++ [mkTimer (Z.of_nat index * 450) index]))
    (combine (seq 0 (List.length gridItems)) gridItems)
    ([], []).

(** Lines 627-631: the [mouseenter] listener of [#bo]. *)
Definition onBoEnter (innerWidth : Z) (gridItems : list classList)
    : list classList * list Timer :=
  if (1024 <? innerWidth)%Z then revealGrid innerWidth gridItems else (gridItems, []).

Definition updateItem (k : nat) (f : classList -> classList) (gridItems : list classList)
    : list classList :=
  map (fun ii : nat * classList => if Nat.eqb (fst ii) k then f (snd ii) else snd ii)
      (combine (seq 0 (List.length gridItems)) gridItems).

(** A timer fires: its callback runs. *)
Definition fireTimer (t : Timer) (gridItems : list classList) : list classList :=
  updateItem (target t) (add "visible") gridItems.

(** The items once the timers due within [elapsed] ms have fired, in the
    order they were set. *)
Definition afterElapsed (elapsed : Z) (st : list classList * list Timer)
    : list classList :=
  fold_left (fun its t => fireTimer t its)
    (filter (fun t => (delay t <=? elapsed)%Z) (snd st)) (fst st).

(** Lines 483-494: [toggleAnimation] on the class list of [.bio]; the
    second component tells whether [setTimeout(startAnimation, 500)] was
    called. *)
Definition startAnimation (typewriter : classList) : classList :=
  add "animation" typewriter.

Definition toggleAnimation (typewriter : classList) : classList * bool :=
  if contains "animation" typewriter
  then (remove "animation" typewriter, true)
  else (startAnimation typewriter, false).

(** The class list once the timer, if one was set, has fired. *)
Definition toggleSettled (typewriter : classList) : classList :=
  let (l, pending) := toggleAnimation typewriter in
  if pending then startAnimation l else l.

(** Concrete class lists and styles of the examples. *)
Definition exampleItem : classList := ["boagrid"; "a"]%string.

Definition bareItem : classList := ["boagrid"]%string.

Definition exampleGrid : list classList :=
  [["boagrid"; "a"]; ["boagrid"; "b"; "visible"]; ["boagrid"; "c"]]%string.

Definition unsetStyle : GridStyle := mkGridStyle EmptyString EmptyString EmptyString.

Definition hoveredStyle : GridStyle :=
  mkGridStyle EmptyString "2fr 1fr 1fr" "1fr 0.5fr 1fr".

Definition runningTypewriter : classList := ["bio"; "animation"]%string.

End Dom.

(** ** Concrete inputs of the examples of the page effects and the listeners *)

(** A canvas rectangle 1000 by 800 CSS pixels at the page origin. *)
Definition canvasRect : DOMRect := mkDOMRect 0 0 1000 800.

(** A letter 20 by 40 pixels whose centre is at (300, 100). *)
Definition letterBox : DOMRect := mkDOMRect 290 80 20 40.

(** A letter 20 by 40 pixels whose centre is at (700, 100). *)
Definition farLetterBox : DOMRect := mkDOMRect 690 80 20 40.

(** The letter effect before the first accepted event. *)
Definition freshTextEffects : TextEffects := mkTextEffects 0 [None; None].

(** A field that is 1 in the height channel everywhere. *)
Definition unitField : sampler2D := fun _ => Vec4 1 0 0 0.

(** A field that is 1 in the height channel up to [y = 0.75] and holds other
    values in every channel above that line. *)
Definition stripedField : sampler2D :=
  fun p => if Rle_dec (v2y p) 0.75 then Vec4 1 0 0 0 else Vec4 9 9 9 9.

(** * Properties *)

(** ** The shader against the update rule *)

Lemma frame0_clears_any :
  forall field mouse resolution time uv,
    simulationFragmentShader field mouse resolution time 0 uv = vec4_splat 0.
Proof.
  intros. unfold simulationFragmentShader. simpl.
  unfold vec4_splat. f_equal; lra.
Qed.


Ltac decide_Rlt :=
  repeat match goal with
  | |- context [Rlt_dec ?a ?b] => destruct (Rlt_dec a b); try lra
  end.

Lemma step_low : forall x, x < 500 -> step 500.0 x = 0.
Proof. intros x Hx. unfold step. decide_Rlt. Qed.

Lemma step_high : forall x, ~ x < 500 -> step 500.0 x = 1.
Proof. intros x Hx. unfold step. decide_Rlt. Qed.

Lemma shader_scale : forall resolution,
  mix 2.0 8.0 (step 500.0 (v2x resolution)) = spec_scale resolution.
Proof.
  intros. unfold spec_scale, spec_highTier.
  destruct (Rlt_dec (v2x resolution) 500) as [H|H].
  - rewrite step_low by exact H. unfold mix. lra.
  - rewrite step_high by exact H. unfold mix. lra.
Qed.

Lemma shader_delta : forall resolution,
  deltaBase * mix 0.6 1.0 (step 500.0 (v2x resolution)) = spec_delta resolution.
Proof.
  intros. unfold spec_delta, spec_highTier, deltaBase.
  destruct (Rlt_dec (v2x resolution) 500) as [H|H].
  - rewrite step_low by exact H. unfold mix. lra.
  - rewrite step_high by exact H. unfold mix. lra.
Qed.

Lemma shader_left : forall field resolution uv,
  v4x (texture2D field
         (vec2_sub uv (Vec2 (v2x (scalar_div_vec2 (mix 2.0 8.0 (step 500.0 (v2x resolution)))
                                                   resolution)) 0.0)))
  = spec_left field resolution uv.
Proof.
  intros. unfold spec_left, texture2D, vec2_sub, scalar_div_vec2. simpl.
  rewrite shader_scale. do 3 f_equal. lra.
Qed.

Lemma shader_right : forall field resolution uv,
  v4x (texture2D field
         (vec2_add uv (Vec2 (v2x (scalar_div_vec2 (mix 2.0 8.0 (step 500.0 (v2x resolution)))
                                                   resolution)) 0.0)))
  = spec_right field resolution uv.
Proof.
  intros. unfold spec_right, texture2D, vec2_add, scalar_div_vec2. simpl.
  rewrite shader_scale. do 3 f_equal. lra.
Qed.

(** Every step but the clearing one writes the update rule's height plus the
    two forcing terms, the update rule's velocity, and twice the same
    horizontal difference. *)
Lemma shader_decompose :
  forall field mouse resolution time frameIndex uv,
    frameIndex <> 0%Z ->
    simulationFragmentShader field mouse resolution time frameIndex uv
    = Vec4 (fst (spec_step field resolution uv)
            + spec_startImpulse frameIndex uv
            + spec_pointerImpulse mouse resolution uv)
           (snd (spec_step field resolution uv))
           ((spec_right field resolution uv - spec_left field resolution uv) * 0.5)
           ((spec_right field resolution uv - spec_left field resolution uv) * 0.5).
Proof.
  intros field mouse resolution time frameIndex uv Hf.
  unfold simulationFragmentShader.
  apply Z.eqb_neq in Hf. rewrite Hf.
  cbv zeta.
  rewrite shader_left, shader_right, shader_delta.
  unfold spec_step, spec_wave_update, spec_startImpulse, spec_pointerImpulse.
  unfold pointerDistSq, centreDistSq, dot, vec2_sub, vec2_sub_scalar, vec2_div, texture2D.
  cbn [v2x v2y fst snd].
  set (d := spec_delta resolution).
  set (l := spec_left field resolution uv).
  set (r := spec_right field resolution uv).
  destruct (frameIndex <? 2)%Z; decide_Rlt; f_equal; lra.
Qed.

(** C1: at [frame = 0] the simulation shader writes exactly (0, 0, 0, 0) for
    every texel, whatever the input texture and the other uniforms hold. *)
Theorem frame0_clears :
  forall (textureA : sampler2D) (mouse resolution : vec2) (time : R) (vUv : vec2),
    simulationFragmentShader textureA mouse resolution time 0 vUv = Vec4 0 0 0 0.
Proof.
  intros. unfold simulationFragmentShader. simpl.
  unfold vec4_splat. f_equal; lra.
Qed.

(** C2, as stated, fails at [frameIndex = 1]: over a cleared field the
    update rule leaves the centre at height 0, while the shader writes the
    start-up impulse 2.5 there. *)
Lemma wave_update_only_fails_at_frame1 :
  (1 <= 1)%Z /\ v2x (Vec2 (-10) (-10)) <= 0 /\
  ~ wave_update_only clearedField (Vec2 (-10) (-10)) (Vec2 100 100)
      0 1 (Vec2 0.5 0.5).
Proof.
  split; [lia|]. split; [simpl; lra|].
  unfold wave_update_only. cbv zeta.
  rewrite shader_decompose by lia.
  intros H. apply (f_equal fst) in H. revert H.
  cbn [fst v4x].
  unfold spec_step, spec_wave_update, spec_left, spec_right.
  unfold spec_startImpulse, spec_pointerImpulse, centreDistSq.
  cbn. decide_Rlt.
Qed.

(** C2 (amended): with an off-field pointer and [frameIndex >= 1] the shader
    writes the velocity of the update rule and the height of the update rule
    plus the start-up impulse, which is zero from [frameIndex = 2] on; so
    from [frameIndex = 2] on height and velocity are exactly those of the
    update rule. *)
Theorem wave_update_from_frame2 :
  forall field mouse resolution time frameIndex uv,
    (1 <= frameIndex)%Z ->
    v2x mouse <= 0 ->
    let out := simulationFragmentShader field mouse resolution time frameIndex uv in
    v4x out = fst (spec_step field resolution uv) + spec_startImpulse frameIndex uv
    /\ v4y out = snd (spec_step field resolution uv)
    /\ ((2 <= frameIndex)%Z -> wave_update_only field mouse resolution time frameIndex uv).
Proof.
  intros field mouse resolution time frameIndex uv Hf Hm.
  assert (Hp : spec_pointerImpulse mouse resolution uv = 0).
  { unfold spec_pointerImpulse. decide_Rlt. }
  cbv zeta. unfold wave_update_only. cbv zeta.
  rewrite shader_decompose by lia.
  cbn [v4x v4y]. rewrite Hp.
  split; [lra|]. split; [reflexivity|].
  intros H2. unfold spec_startImpulse.
  assert (Hlt : (frameIndex <? 2)%Z = false) by (apply Z.ltb_ge; lia).
  rewrite Hlt.
  rewrite (surjective_pairing (spec_step field resolution uv)) at 3.
  f_equal. lra.
Qed.

Lemma wave_update_from_frame2_witness :
  (1 <= 2)%Z /\ v2x (Vec2 (-10) (-10)) <= 0 /\
  wave_update_only (fun _ => Vec4 1 0 0 0) (Vec2 (-10) (-10)) (Vec2 100 100)
    0 2 (Vec2 0.5 0.5).
Proof.
  split; [lia|]. split; [simpl; lra|].
  apply (wave_update_from_frame2 (fun _ => Vec4 1 0 0 0) (Vec2 (-10) (-10))
           (Vec2 100 100) 0 2 (Vec2 0.5 0.5)); [lia | simpl; lra | lia].
Defined.

(** *** Start-up impulse and pointer forcing *)

Lemma smoothstep_at_pointer : smoothstep 0.02 0.005 0 = 1.
Proof.
  unfold smoothstep, clamp.
  replace ((0 - 0.02) / (0.005 - 0.02)) with (4 / 3) by lra.
  rewrite Rmax_left by lra. rewrite Rmin_right by lra. lra.
Qed.

Lemma pointerImpulse_off : forall mouse resolution uv,
  v2x mouse <= 0 -> spec_pointerImpulse mouse resolution uv = 0.
Proof. intros. unfold spec_pointerImpulse. decide_Rlt. Qed.

Lemma pointerImpulse_at_pointer : forall mouse resolution uv,
  0 < v2x mouse ->
  pointerDistSq mouse resolution uv = 0 ->
  spec_pointerImpulse mouse resolution uv = 1.2.
Proof.
  intros mouse resolution uv Hm Hd. unfold spec_pointerImpulse.
  rewrite Hd, sqrt_0, smoothstep_at_pointer. decide_Rlt.
Qed.

Lemma spec_step_cleared : forall field resolution uv,
  (forall p, v4x (field p) = 0 /\ v4y (field p) = 0) ->
  spec_step field resolution uv = (0, 0).
Proof.
  intros field resolution uv Hz.
  unfold spec_step, spec_wave_update, spec_left, spec_right.
  destruct (Hz uv) as [-> ->].
  destruct (Hz (Vec2 (v2x uv - spec_scale resolution / v2x resolution) (v2y uv))) as [-> _].
  destruct (Hz (Vec2 (v2x uv + spec_scale resolution / v2x resolution) (v2y uv))) as [-> _].
  f_equal; lra.
Qed.

(** C5, as stated, fails at [frameIndex = 1] when the pointer is on the
    field: over a cleared 100 by 100 field with the pointer on texel
    (80, 50), that texel is higher than texel (70, 50), which is nearer the
    centre. *)
Lemma nearer_is_higher_fails_under_pointer :
  centreDistSq (Vec2 0.705 0.505) < 0.25 /\
  centreDistSq (Vec2 0.805 0.505) < 0.25 /\
  centreDistSq (Vec2 0.705 0.505) <= centreDistSq (Vec2 0.805 0.505) /\
  ~ nearer_is_higher clearedField (Vec2 80.5 50.5) (Vec2 100 100) 0 1
      (Vec2 0.705 0.505) (Vec2 0.805 0.505).
Proof.
  unfold centreDistSq. cbn [v2x v2y].
  split; [lra|]. split; [lra|]. split; [lra|].
  unfold nearer_is_higher.
  rewrite !shader_decompose by lia. cbn [v4x].
  rewrite !spec_step_cleared by (intros; split; reflexivity).
  rewrite (pointerImpulse_at_pointer (Vec2 80.5 50.5) (Vec2 100 100) (Vec2 0.805 0.505)).
  2: { cbn; lra. }
  2: { unfold pointerDistSq; cbn [v2x v2y]; lra. }
  assert (Hnear : spec_pointerImpulse (Vec2 80.5 50.5) (Vec2 100 100) (Vec2 0.705 0.505) = 0).
  { unfold spec_pointerImpulse, pointerDistSq. cbn [v2x v2y]. decide_Rlt. }
  rewrite Hnear.
  unfold spec_startImpulse, centreDistSq. cbn [v2x v2y fst Z.ltb Z.compare Pos.compare Pos.compare_cont].
  decide_Rlt.
Qed.

(** C5 (amended): at [frameIndex = 0], and at [frameIndex = 1] when the
    pointer is off the field and the input is the cleared field (zero height
    and velocity everywhere, which is what the loop feeds that step), of two
    texels within squared distance 0.25 of the centre the nearer one is at
    least as high as the farther one. *)
Theorem impulse_monotone :
  forall field mouse resolution time frameIndex near far,
    frameIndex = 0%Z
    \/ (frameIndex = 1%Z /\ v2x mouse <= 0
        /\ forall p, v4x (field p) = 0 /\ v4y (field p) = 0) ->
    centreDistSq near < 0.25 ->
    centreDistSq far < 0.25 ->
    centreDistSq near <= centreDistSq far ->
    nearer_is_higher field mouse resolution time frameIndex near far.
Proof.
  intros field mouse resolution time frameIndex near far Hf Hn Hfar Hle.
  unfold nearer_is_higher.
  destruct Hf as [-> | (-> & Hm & Hz)].
  - rewrite !frame0_clears_any. cbn. lra.
  - rewrite !shader_decompose by lia. cbn [v4x].
    rewrite !spec_step_cleared by exact Hz.
    rewrite !pointerImpulse_off by exact Hm.
    unfold spec_startImpulse. cbn [fst Z.ltb Z.compare Pos.compare Pos.compare_cont].
    decide_Rlt.
Qed.

Lemma impulse_monotone_witness :
  nearer_is_higher clearedField (Vec2 (-10) (-10)) (Vec2 100 100) 0 1
    (Vec2 0.705 0.505) (Vec2 0.805 0.505).
Proof.
  apply impulse_monotone.
  - right. split; [reflexivity|]. split; [simpl; lra|]. intros; split; reflexivity.
  - unfold centreDistSq; simpl; lra.
  - unfold centreDistSq; simpl; lra.
  - unfold centreDistSq; simpl; lra.
Defined.

(** C6, as stated, fails at [frameIndex = 0]: the clearing step returns
    before the pointer is looked at, so the texel under the pointer receives
    nothing where the claim promises 1.2. *)
Lemma pointer_forcing_fails_at_frame0 :
  0 < v2x (Vec2 50 50) /\
  ~ pointer_forcing_local clearedField (Vec2 50 50) (Vec2 100 100)
      0 0 (Vec2 0.5 0.5).
Proof.
  split; [simpl; lra|].
  unfold pointer_forcing_local. intros [_ H].
  assert (Hd : pointerDistSq (Vec2 50 50) (Vec2 100 100) (Vec2 0.5 0.5) = 0).
  { unfold pointerDistSq. cbn [v2x v2y]. lra. }
  rewrite Hd in H. specialize (H ltac:(lra)).
  rewrite sqrt_0, smoothstep_at_pointer in H.
  unfold pointerContribution in H. rewrite !frame0_clears_any in H.
  cbn in H. lra.
Qed.

(** C6 (amended): in every step but the clearing one ([frameIndex] other
    than 0) with an on-field pointer, a texel at squared distance 0.0004 or
    more from the pointer receives nothing from it, and a texel within that
    radius receives [1.2 * smoothstep(0.02, 0.005, distance)]; the amount
    depends on the step's own pointer position only, so it is added afresh
    in each such step.  In the clearing step the pointer adds nothing to any
    texel. *)
Theorem pointer_forcing_after_clear :
  forall field mouse resolution time frameIndex uv,
    0 < v2x mouse ->
    (frameIndex <> 0%Z ->
       pointer_forcing_local field mouse resolution time frameIndex uv)
    /\ pointerContribution field mouse resolution time 0 uv = 0.
Proof.
  intros field mouse resolution time frameIndex uv Hm.
  split.
  2:{ unfold pointerContribution. rewrite !frame0_clears_any. cbn. lra. }
  intros Hf.
  assert (Hc : pointerContribution field mouse resolution time frameIndex uv
               = spec_pointerImpulse mouse resolution uv).
  { unfold pointerContribution. rewrite !shader_decompose by exact Hf.
    cbn [v4x]. rewrite (pointerImpulse_off (Vec2 (-10) (-10))) by (simpl; lra). lra. }
  unfold pointer_forcing_local. rewrite Hc. unfold spec_pointerImpulse.
  split; intros Hd; decide_Rlt.
Qed.

Lemma pointer_forcing_after_clear_witness :
  pointer_forcing_local clearedField (Vec2 50 50) (Vec2 100 100)
    0 1 (Vec2 0.5 0.5).
Proof.
  apply (pointer_forcing_after_clear clearedField (Vec2 50 50) (Vec2 100 100)
           0 1 (Vec2 0.5 0.5)); [simpl; lra | lia].
Defined.

(** *** The derivative channels and the presentation pass *)

(** C10, as stated, fails in its last clause: the chromatic offsets carry
    the time term [0.00014 * (sin t, sin (0.43 t))], whose components
    differ.  Over a cleared field at [frameIndex = 1] the derivative
    channels of the centre texel are both 0, and at [time = PI / 3] the
    green offset is vertical. *)
Lemma chromatic_offset_off_diagonal :
  v4z centreTexelAtFrame1 = v4w centreTexelAtFrame1
  /\ ~ on_diagonal (renderOffsetG centreTexelAtFrame1 (PI / 3)).
Proof.
  unfold centreTexelAtFrame1, clearedField. rewrite shader_decompose by lia.
  split; [reflexivity|].
  unfold on_diagonal, renderOffsetG, renderOffset, renderNormal, renderTimeOffset.
  unfold normalize, vec2_sub, vec2_scale, spec_left, spec_right.
  cbn [v2x v2y v3x v3y v3z v4x v4y v4z v4w].
  replace (PI / 3 * 3.0) with PI by lra.
  rewrite sin_PI.
  assert (Hs : 0 < sin (PI * 0.43)).
  { apply sin_gt_0; pose proof PI_RGT_0; lra. }
  replace ((0 - 0) * 0.5) with 0 by lra.
  replace (- 0) with 0 by lra.
  unfold Rdiv. rewrite !Rmult_0_l. lra.
Qed.

(** C10 (amended): whenever [frameIndex >= 1] the two derivative channels
    written by the simulation step are equal, both [(right - left) * 0.5];
    hence the pseudo-normal of the presentation pass has equal [x] and [z]
    components and its [xz] part, which both chromatic offsets scale, lies
    on the diagonal: the green offset plus the time term and the blue
    offset minus the time term are diagonal vectors. *)
Theorem derivative_channels_equal :
  forall field mouse resolution time frameIndex uv renderTime,
    (1 <= frameIndex)%Z ->
    let out := simulationFragmentShader field mouse resolution time frameIndex uv in
    v4z out = (spec_right field resolution uv - spec_left field resolution uv) * 0.5
    /\ v4w out = (spec_right field resolution uv - spec_left field resolution uv) * 0.5
    /\ v4z out = v4w out
    /\ v3x (renderNormal out) = v3z (renderNormal out)
    /\ on_diagonal (renderOffset out)
    /\ on_diagonal (vec2_add (renderOffsetG out renderTime) (renderTimeOffset renderTime))
    /\ on_diagonal (vec2_sub (renderOffsetB out renderTime) (renderTimeOffset renderTime)).
Proof.
  intros field mouse resolution time frameIndex uv renderTime Hf.
  cbv zeta. rewrite shader_decompose by lia.
  unfold on_diagonal, renderOffsetG, renderOffsetB, renderOffset, renderNormal.
  unfold normalize, length3, vec2_add, vec2_sub, vec2_scale.
  cbn [v2x v2y v3x v3y v3z v4x v4y v4z v4w].
  repeat split; lra.
Qed.

Lemma derivative_channels_equal_witness :
  v4z centreTexelAtFrame1 = v4w centreTexelAtFrame1.
Proof.
  apply (derivative_channels_equal clearedField (Vec2 (-10) (-10))
           (Vec2 100 100) 0 1 (Vec2 0.5 0.5) 0).
  lia.
Defined.

(** ** The driver *)

(** *** Rounding to the nearest double *)

(** The double nearest to the decimal 1.15 is [dpr115]; 1000 times it
    rounds up to 1150, 800 times it stays below 920. *)
Lemma round64_examples :
  (round64 (23 # 20) == dpr115)%Q
  /\ (round64 (1000 * dpr115) == 1150)%Q
  /\ Qfloor (round64 (800 * dpr115)) = 919%Z
  /\ (round64 300 == 300)%Q
  /\ (round64 (inject_Z (2 ^ 53 + 1)) == inject_Z (2 ^ 53))%Q
  /\ (round64 (inject_Z (2 ^ 53 + 3)) == inject_Z (2 ^ 53 + 4))%Q.
Proof. repeat split; vm_compute; reflexivity. Qed.

(** Rounding to the nearest integer never passes an integer bound. *)
Lemma roundHalfEven_le : forall N D z,
  (N <= z * Zpos D)%Z -> (roundHalfEven N D <= z)%Z.
Proof.
  intros N D z H. unfold roundHalfEven.
  pose proof (Z.div_mod N (Zpos D) ltac:(lia)) as E.
  pose proof (Z.mod_pos_bound N (Zpos D) ltac:(lia)) as B.
  set (q := (N / Zpos D)%Z) in *. set (r := (N mod Zpos D)%Z) in *.
  assert (Hq : (q <= z)%Z) by nia.
  destruct (Z.eq_dec q z) as [-> | Hne].
  - assert (r = 0)%Z by nia.
    replace (2 * r ?= Zpos D)%Z with Lt by (symmetry; apply Z.compare_lt_iff; lia).
    lia.
  - destruct (2 * r ?= Zpos D)%Z; [destruct (Z.even q)| |]; lia.
Qed.

Lemma roundHalfEven_nonneg : forall N D, (0 <= N)%Z -> (0 <= roundHalfEven N D)%Z.
Proof.
  intros N D H. unfold roundHalfEven.
  pose proof (Z.div_pos N (Zpos D) H ltac:(lia)).
  destruct (2 * (N mod Zpos D) ?= Zpos D)%Z; [destruct (Z.even _)| |]; lia.
Qed.

Lemma binade_lt : forall n d j,
  (Zpos n < 2 ^ j * Zpos d)%Z -> (0 <= j)%Z -> (binade n d < j)%Z.
Proof.
  intros n d j H Hj. unfold binade.
  destruct (Zpos d <=? Zpos n)%Z eqn:E.
  - apply Z.leb_le in E.
    assert (Hq : (Zpos n / Zpos d < 2 ^ j)%Z).
    { apply Z.div_lt_upper_bound; lia. }
    assert (Hp : (0 < Zpos n / Zpos d)%Z) by (apply Z.div_str_pos; lia).
    apply Z.log2_lt_pow2; lia.
  - apply Z.leb_gt in E.
    assert (Hc : (1 < (Zpos d + Zpos n - 1) / Zpos n)%Z).
    { apply Z.lt_le_trans with 2%Z; [lia|].
      apply Z.div_le_lower_bound; lia. }
    pose proof (Z.log2_up_pos _ Hc). lia.
Qed.

Lemma roundPos_nonneg : forall n d, (0 <= roundPos n d)%Q.
Proof.
  intros n d. unfold roundPos.
  destruct (binade n d - 52)%Z as [|p|p].
  - change 0%Q with (inject_Z 0). rewrite <- Zle_Qle.
    apply roundHalfEven_nonneg. lia.
  - change 0%Q with (inject_Z 0). rewrite <- Zle_Qle.
    pose proof (roundHalfEven_nonneg (Zpos n) (d * 2 ^ p) ltac:(lia)).
    assert (0 < 2 ^ Zpos p)%Z by (apply Z.pow_pos_nonneg; lia). nia.
  - unfold Qle. cbn [Qnum Qden].
    assert (0 < 2 ^ Zpos p)%Z by (apply Z.pow_pos_nonneg; lia).
    pose proof (roundHalfEven_nonneg (Zpos n * 2 ^ Zpos p) d ltac:(nia)). lia.
Qed.

Lemma roundPos_le_Z : forall n d z,
  (Zpos n <= z * Zpos d)%Z -> (z < 2 ^ 53)%Z -> (roundPos n d <= inject_Z z)%Q.
Proof.
  intros n d z H Hz. unfold roundPos.
  assert (Hb : (binade n d < 53)%Z).
  { apply binade_lt; [|lia].
    assert (z * Zpos d < 2 ^ 53 * Zpos d)%Z by (apply Z.mul_lt_mono_pos_r; lia).
    lia. }
  destruct (binade n d - 52)%Z as [|p|p] eqn:E; try lia.
  - rewrite <- Zle_Qle. apply roundHalfEven_le. exact H.
  - unfold Qle. cbn [Qnum Qden inject_Z]. rewrite Pos2Z.inj_pow.
    assert (0 < 2 ^ Zpos p)%Z by (apply Z.pow_pos_nonneg; lia).
    assert (roundHalfEven (Zpos n * 2 ^ Zpos p) d <= z * 2 ^ Zpos p)%Z; [|lia].
    apply roundHalfEven_le. nia.
Qed.

(** A double never rounds past an integer below 2^53: if [x <= z] then
    [round64 x <= z]. *)
Lemma round64_le_Z : forall (x : Q) (z : Z),
  (x <= inject_Z z)%Q -> (0 <= z < 2 ^ 53)%Z -> (round64 x <= inject_Z z)%Q.
Proof.
  intros [n d] z H [Hz0 Hz]. unfold round64. cbn [Qnum Qden].
  assert (Hzq : (0 <= inject_Z z)%Q)
    by (change 0%Q with (inject_Z 0); rewrite <- Zle_Qle; exact Hz0).
  destruct n as [|n|n].
  - exact Hzq.
  - apply roundPos_le_Z; [|exact Hz].
    unfold Qle in H. cbn [Qnum Qden inject_Z] in H. lia.
  - pose proof (roundPos_nonneg n d). Lqa.lra.
Qed.

Lemma floor_round64_le : forall (x : Q) (z : Z),
  (x <= inject_Z z)%Q -> (0 <= z < 2 ^ 53)%Z -> (Qfloor (round64 x) <= z)%Z.
Proof.
  intros x z H Hz. rewrite Zle_Qle.
  eapply Qle_trans; [apply Qfloor_le | apply round64_le_Z; assumption].
Qed.

Lemma roundHalfEven_ge : forall N D z,
  (z * Zpos D <= N)%Z -> (z <= roundHalfEven N D)%Z.
Proof.
  intros N D z H. unfold roundHalfEven.
  assert (Hq : (z <= N / Zpos D)%Z) by (apply Z.div_le_lower_bound; lia).
  destruct (2 * (N mod Zpos D) ?= Zpos D)%Z; [destruct (Z.even _)| |]; lia.
Qed.

(** An upper bound that is a multiple of a quarter. *)
Lemma roundPos_le_quarter : forall n d z,
  (4 * Zpos n <= z * Zpos d)%Z -> (z < 2 ^ 53)%Z -> (roundPos n d <= z # 4)%Q.
Proof.
  intros n d z H Hz. unfold roundPos.
  assert (Hb : (binade n d < 51)%Z).
  { apply binade_lt; [|lia].
    change (2 ^ 53)%Z with 9007199254740992%Z in Hz.
    change (2 ^ 51)%Z with 2251799813685248%Z.
    assert (z * Zpos d < 9007199254740992 * Zpos d)%Z
      by (apply Z.mul_lt_mono_pos_r; lia).
    lia. }
  destruct (binade n d - 52)%Z as [|p|p] eqn:E; try lia.
  assert (Hp : (2 <= Zpos p)%Z) by lia.
  unfold Qle. cbn [Qnum Qden]. rewrite Pos2Z.inj_pow.
  assert (E2 : (2 ^ Zpos p = 4 * 2 ^ (Zpos p - 2))%Z).
  { replace (Zpos p) with (2 + (Zpos p - 2))%Z at 1 by lia.
    rewrite Z.pow_add_r by lia. reflexivity. }
  assert (0 < 2 ^ (Zpos p - 2))%Z by (apply Z.pow_pos_nonneg; lia).
  assert (roundHalfEven (Zpos n * 2 ^ Zpos p) d <= z * 2 ^ (Zpos p - 2))%Z; [|lia].
  apply roundHalfEven_le. rewrite E2. nia.
Qed.

Lemma roundPos_ge_Z : forall n d z,
  (z * Zpos d <= Zpos n)%Z -> (Zpos n < 2 ^ 53 * Zpos d)%Z ->
  (inject_Z z <= roundPos n d)%Q.
Proof.
  intros n d z H Hn. unfold roundPos.
  assert (Hb : (binade n d < 53)%Z) by (apply binade_lt; lia).
  destruct (binade n d - 52)%Z as [|p|p] eqn:E; try lia.
  - rewrite <- Zle_Qle. apply roundHalfEven_ge. exact H.
  - unfold Qle. cbn [Qnum Qden inject_Z]. rewrite Pos2Z.inj_pow.
    assert (0 < 2 ^ Zpos p)%Z by (apply Z.pow_pos_nonneg; lia).
    assert (z * 2 ^ Zpos p <= roundHalfEven (Zpos n * 2 ^ Zpos p) d)%Z; [|lia].
    apply roundHalfEven_ge. nia.
Qed.

Lemma round64_le_quarter : forall (x : Q) (z : Z),
  (x <= z # 4)%Q -> (0 <= z < 2 ^ 53)%Z -> (round64 x <= z # 4)%Q.
Proof.
  intros [n d] z H [Hz0 Hz]. unfold round64. cbn [Qnum Qden].
  assert (Hzq : (0 <= z # 4)%Q) by (unfold Qle; cbn; lia).
  destruct n as [|n|n].
  - exact Hzq.
  - apply roundPos_le_quarter; [|exact Hz].
    unfold Qle in H. cbn [Qnum Qden] in H. lia.
  - pose proof (roundPos_nonneg n d). Lqa.lra.
Qed.

Lemma round64_ge_Z : forall (x : Q) (z : Z),
  (inject_Z z <= x)%Q -> (x < inject_Z (2 ^ 53))%Q -> (0 <= z)%Z ->
  (inject_Z z <= round64 x)%Q.
Proof.
  intros [n d] z H Hx Hz. unfold round64. cbn [Qnum Qden].
  unfold Qle in H. unfold Qlt in Hx. cbn [Qnum Qden inject_Z] in H, Hx.
  destruct n as [|n|n].
  - unfold Qle. cbn. lia.
  - apply roundPos_ge_Z; lia.
  - exfalso. lia.
Qed.

(** On an integer quotient by 2 or 3 the rounding does not change the
    floor. *)
Lemma floor_js_div : forall (A f : Z),
  (0 <= A < 2 ^ 50)%Z -> (f = 2 \/ f = 3)%Z ->
  Qfloor (js_div (inject_Z A) (inject_Z f)) = (A / f)%Z.
Proof.
  intros A f HA Hf. unfold js_div.
  change (2 ^ 50)%Z with 1125899906842624%Z in HA.
  assert (Hf' : (0 < f <= 3)%Z) by lia.
  pose proof (Z.div_mod A f ltac:(lia)) as E.
  pose proof (Z.mod_pos_bound A f ltac:(lia)) as B.
  assert (Hk : (0 <= A / f)%Z) by (apply Z.div_pos; lia).
  assert (Hk2 : (A / f <= A)%Z) by (apply Z.div_le_upper_bound; nia).
  set (k := (A / f)%Z) in *. set (r := (A mod f)%Z) in *.
  assert (Hfq : (0 < inject_Z f)%Q)
    by (change 0%Q with (inject_Z 0); rewrite <- Zlt_Qlt; lia).
  assert (Hlo : (inject_Z k <= inject_Z A / inject_Z f)%Q).
  { apply Qle_shift_div_l; [exact Hfq|].
    rewrite <- inject_Z_mult, <- Zle_Qle. lia. }
  assert (Hhi : (inject_Z A / inject_Z f <= (4 * k + 3) # 4)%Q).
  { apply Qle_shift_div_r; [exact Hfq|].
    unfold Qle. cbn [Qnum Qden inject_Z Qmult]. nia. }
  assert (H1 : (inject_Z k <= round64 (inject_Z A / inject_Z f))%Q).
  { apply round64_ge_Z; [exact Hlo| |exact Hk].
    apply Qle_lt_trans with ((4 * k + 3) # 4); [exact Hhi|].
    unfold Qlt. cbn [Qnum Qden inject_Z].
    change (2 ^ 53)%Z with 9007199254740992%Z. lia. }
  assert (H2 : (round64 (inject_Z A / inject_Z f) <= (4 * k + 3) # 4)%Q).
  { apply round64_le_quarter; [exact Hhi|].
    change (2 ^ 53)%Z with 9007199254740992%Z. lia. }
  apply Z.le_antisymm.
  - assert (Qfloor (round64 (inject_Z A / inject_Z f)) < k + 1)%Z; [|lia].
    rewrite Zlt_Qlt.
    apply Qle_lt_trans with (round64 (inject_Z A / inject_Z f)); [apply Qfloor_le|].
    apply Qle_lt_trans with ((4 * k + 3) # 4); [exact H2|].
    unfold Qlt. cbn [Qnum Qden inject_Z]. lia.
  - rewrite <- (Qfloor_Z k). apply Qfloor_resp_le. exact H1.
Qed.

(** A product that is an integer is not changed by the rounding. *)
Lemma floor_js_mul_exact : forall (a b : Q) (N : Z),
  (a * b == inject_Z N)%Q -> (0 <= N < 2 ^ 50)%Z ->
  Qfloor (js_mul a b) = N.
Proof.
  intros a b N H HN. unfold js_mul.
  change (2 ^ 50)%Z with 1125899906842624%Z in HN.
  assert (H1 : (round64 (a * b) <= inject_Z N)%Q).
  { apply round64_le_Z; [rewrite H; apply Qle_refl|].
    change (2 ^ 53)%Z with 9007199254740992%Z. lia. }
  assert (H2 : (inject_Z N <= round64 (a * b))%Q).
  { apply round64_ge_Z; [rewrite H; apply Qle_refl| |lia].
    rewrite H. rewrite <- Zlt_Qlt.
    change (2 ^ 53)%Z with 9007199254740992%Z. lia. }
  rewrite <- (Qfloor_Z N). apply Qfloor_comp.
  apply Qle_antisym; assumption.
Qed.

Lemma floor_div_exact : forall (x : Q) (N f : Z),
  (x == inject_Z N)%Q -> (0 < f)%Z ->
  Qfloor (x / inject_Z f) = (N / f)%Z.
Proof.
  intros x N f H Hf.
  assert (E : (x / inject_Z f == N # Z.to_pos f)%Q).
  { rewrite H. unfold Qeq, Qdiv, Qmult, Qinv. destruct f; try lia.
    cbn. lia. }
  rewrite (Qfloor_comp _ _ E). unfold Qfloor. cbn.
  rewrite Z2Pos.id by lia. reflexivity.
Qed.

(** Where the products are integers the resolution the driver computes is
    the one of the real-number formula. *)
Lemma computed_matches_formula :
  forall (innerWidth innerHeight : Z) (dpr : Q) (simResFactor N M : Z),
    (simResFactor = 2 \/ simResFactor = 3)%Z ->
    (0 <= N < 2 ^ 50)%Z -> (0 <= M < 2 ^ 50)%Z ->
    (inject_Z innerWidth * dpr == inject_Z N)%Q ->
    (inject_Z innerHeight * dpr == inject_Z M)%Q ->
    computed_simResolution innerWidth innerHeight dpr simResFactor
    = spec_simResolution innerWidth innerHeight dpr simResFactor.
Proof.
  intros w h d f N M Hf HN HM EN EM.
  unfold computed_simResolution, spec_simResolution.
  rewrite (floor_js_mul_exact _ _ N EN HN), (floor_js_mul_exact _ _ M EM HM).
  rewrite !floor_js_div by assumption.
  rewrite (floor_div_exact _ N f EN), (floor_div_exact _ M f EM) by lia.
  reflexivity.
Qed.

Lemma handle_simResFactor : forall e s, simResFactor (handle e s) = simResFactor s.
Proof.
  intros e s. destruct e as [ | | |touches ?|? touches ?| | ]; cbn; try reflexivity.
  - destruct touches as [|[? ?] ?]; reflexivity.
  - unfold handleTouchMove. destruct (Qlt_le_dec _ _); [reflexivity|].
    destruct touches as [|[? ?] ?]; reflexivity.
Qed.

Lemma handle_dpr : forall e s, dpr (handle e s) = dpr s.
Proof.
  intros e s. destruct e as [ | | |touches ?|? touches ?| | ]; cbn; try reflexivity.
  - destruct touches as [|[? ?] ?]; reflexivity.
  - unfold handleTouchMove. destruct (Qlt_le_dec _ _); [reflexivity|].
    destruct touches as [|[? ?] ?]; reflexivity.
Qed.

Lemma handle_isMobile : forall e s, isMobile (handle e s) = isMobile s.
Proof.
  intros e s. destruct e as [ | | |touches ?|? touches ?| | ]; cbn; try reflexivity.
  - destruct touches as [|[? ?] ?]; reflexivity.
  - unfold handleTouchMove. destruct (Qlt_le_dec _ _); [reflexivity|].
    destruct touches as [|[? ?] ?]; reflexivity.
Qed.

Lemma reachable_simResFactor : forall s,
  reachable s -> simResFactor s = 2%Z \/ simResFactor s = 3%Z.
Proof.
  induction 1 as [w h r a b | e s Hs IH].
  - cbn. destruct (w <? 768)%Z; auto.
  - rewrite handle_simResFactor. exact IH.
Qed.

Lemma handle_dims_other : forall e s,
  is_resize e = false ->
  dims (rtA s) = dims (rtB s) ->
  dims (rtA (handle e s)) = dims (rtA s) /\ dims (rtB (handle e s)) = dims (rtB s).
Proof.
  intros e s He Hd.
  destruct e as [ | | |touches ?|? touches ?| | ]; cbn in He; try discriminate;
    cbn; auto.
  - destruct touches as [|[? ?] ?]; cbn; auto.
  - unfold handleTouchMove. destruct (Qlt_le_dec _ _); [auto|].
    destruct touches as [|[? ?] ?]; cbn; auto.
Qed.

Lemma resize_dims : forall innerWidth innerHeight freshA freshB s,
  let s' := resize innerWidth innerHeight freshA freshB s in
  dims (rtA s') = computed_simResolution innerWidth innerHeight (dpr s) (simResFactor s)
  /\ dims (rtB s') = computed_simResolution innerWidth innerHeight (dpr s) (simResFactor s)
  /\ uResolution s' = computed_simResolution innerWidth innerHeight (dpr s) (simResFactor s)
  /\ frame s' = 0%Z.
Proof.
  intros innerWidth innerHeight freshA freshB s. cbv zeta.
  repeat split; reflexivity.
Qed.

Lemma reachable_same_dims : forall s, reachable s -> dims (rtA s) = dims (rtB s).
Proof.
  induction 1 as [w h r a b | e s Hs IH].
  - reflexivity.
  - destruct (is_resize e) eqn:He.
    + destruct e; try discriminate. cbn. reflexivity.
    + destruct (handle_dims_other e s He IH) as [-> ->]. exact IH.
Qed.




(** *** Pointer mapping *)

(** Until the first resize the closure's [simWidth] and [simHeight] are the
    dimensions of the field, and a mouse move stores the mapping of section
    4.4. *)
Lemma updateMousePosition_mapping : forall clientX clientY rect s,
  uMouse (updateMousePosition clientX clientY rect s)
  = spec_pointerMapping clientX clientY rect (simWidth s) (simHeight s).
Proof. reflexivity. Qed.

Lemma handle_simWidth : forall e s,
  simWidth (handle e s) = simWidth s /\ simHeight (handle e s) = simHeight s.
Proof.
  intros e s. destruct e as [ | | |touches ?|? touches ?| | ]; cbn; auto.
  - destruct touches as [|[? ?] ?]; cbn; auto.
  - unfold handleTouchMove. destruct (Qlt_le_dec _ _); [auto|].
    destruct touches as [|[? ?] ?]; cbn; auto.
Qed.

(** C8 at a failing input.  A desktop page starts in a 1000 by 800 viewport
    (field 500 by 400), the viewport is resized to 2000 by 1600 (field 1000
    by 800) and the mouse then moves to the middle of the canvas.  The
    pointer is stored as (250, 200), the middle of the start-up field, while
    the mapping onto the current field gives (500, 400). *)
Theorem pointer_mapping_stale_after_resize :
  forall contentsA contentsB freshA freshB,
    let surface := mkDOMRect 0 0 2000 1600 in
    let s := run [ResizeEvent 2000 1600 freshA freshB; MouseMove 1000 800 surface]
                 (startup 1000 800 1 contentsA contentsB) in
    dims (rtA s) = (1000%Z, 800%Z)
    /\ uResolution s = (1000%Z, 800%Z)
    /\ (fst (uMouse s) == 250)%Q /\ (snd (uMouse s) == 200)%Q
    /\ (fst (spec_pointerMapping 1000 800 surface 1000 800) == 500)%Q
    /\ (snd (spec_pointerMapping 1000 800 surface 1000 800) == 400)%Q
    /\ ~ (fst (uMouse s) == fst (spec_pointerMapping 1000 800 surface
                                  (rt_width (rtA s)) (rt_height (rtA s))))%Q.
Proof.
  intros. subst s surface.
  repeat split; try reflexivity.
  cbn. intros H. discriminate H.
Qed.

(** *** Device tier *)

Lemma tier_scale_value : forall s,
  tier_scale s = if (fst (uResolution s) <? 500)%Z then 2 else 8.
Proof.
  intros s. unfold tier_scale, vec2_of_Z. cbn [v2x].
  destruct (fst (uResolution s) <? 500)%Z eqn:E.
  - apply Z.ltb_lt in E. apply IZR_lt in E.
    rewrite step_low by exact E. unfold mix. lra.
  - apply Z.ltb_ge in E. apply IZR_le in E.
    rewrite step_high by lra. unfold mix. lra.
Qed.

Lemma tier_deltaFactor_value : forall s,
  tier_deltaFactor s = if (fst (uResolution s) <? 500)%Z then 0.6 else 1.
Proof.
  intros s. unfold tier_deltaFactor, vec2_of_Z. cbn [v2x].
  destruct (fst (uResolution s) <? 500)%Z eqn:E.
  - apply Z.ltb_lt in E. apply IZR_lt in E.
    rewrite step_low by exact E. unfold mix. lra.
  - apply Z.ltb_ge in E. apply IZR_le in E.
    rewrite step_high by lra. unfold mix. lra.
Qed.

(** C9, as stated, fails for the constants inside the shader: a desktop page
    that starts 1200 pixels wide simulates on a field 600 wide with scale 8
    and factor 1.0; after a resize to 800 pixels the field is 400 wide and
    the shader uses scale 2 and factor 0.6, although [isMobile] is still
    false. *)
Lemma shader_tier_changes_on_resize :
  reachable desktopPage
  /\ tier_scale desktopPage = 8
  /\ tier_scale (handle (ResizeEvent 800 600 cleared cleared) desktopPage) = 2
  /\ tier_deltaFactor desktopPage = 1
  /\ tier_deltaFactor (handle (ResizeEvent 800 600 cleared cleared) desktopPage) = 0.6
  /\ tier_scale (handle (ResizeEvent 800 600 cleared cleared) desktopPage)
     <> tier_scale desktopPage
  /\ tier_deltaFactor (handle (ResizeEvent 800 600 cleared cleared) desktopPage)
     <> tier_deltaFactor desktopPage
  /\ isMobile (handle (ResizeEvent 800 600 cleared cleared) desktopPage) = false.
Proof.
  split; [constructor|].
  rewrite !tier_scale_value, !tier_deltaFactor_value.
  assert (E1 : (fst (uResolution desktopPage) <? 500)%Z = false)
    by (vm_compute; reflexivity).
  assert (E2 : (fst (uResolution (handle (ResizeEvent 800 600 cleared cleared)
                                    desktopPage)) <? 500)%Z = true)
    by (vm_compute; reflexivity).
  rewrite E1, E2.
  repeat split; try lra.
Qed.

(** C9 (amended): the tier decision of the driver ([isMobile], [dpr] and
    [simResFactor]) is fixed at start-up and no event changes it; the
    constants inside the shader follow the current [resolution] uniform,
    scale 2 and factor 0.6 while the field is less than 500 texels wide,
    scale 8 and factor 1.0 otherwise, so they change exactly when a resize
    moves the field width across 500, and no other event changes them. *)
Theorem tier_fixed_in_driver_only :
  forall e s,
    isMobile (handle e s) = isMobile s
    /\ dpr (handle e s) = dpr s
    /\ simResFactor (handle e s) = simResFactor s
    /\ tier_scale s = (if (fst (uResolution s) <? 500)%Z then 2 else 8)
    /\ deltaBase * tier_deltaFactor s
       = 0.72 * (if (fst (uResolution s) <? 500)%Z then 0.6 else 1)
    /\ (is_resize e = false ->
          tier_scale (handle e s) = tier_scale s
          /\ tier_deltaFactor (handle e s) = tier_deltaFactor s)
    /\ (forall innerWidth innerHeight freshA freshB,
          e = ResizeEvent innerWidth innerHeight freshA freshB ->
          fst (uResolution (handle e s))
          = Qfloor (js_div (inject_Z (Qfloor (js_mul (inject_Z innerWidth) (dpr s))))
                           (inject_Z (simResFactor s)))).
Proof.
  intros e s.
  split; [apply handle_isMobile|]. split; [apply handle_dpr|].
  split; [apply handle_simResFactor|]. split; [apply tier_scale_value|].
  split; [rewrite tier_deltaFactor_value; reflexivity|]. split.
  - intros He.
    assert (Hr : uResolution (handle e s) = uResolution s).
    { destruct e as [ | | |touches ?|? touches ?| | ]; cbn in He; try discriminate;
        cbn; auto.
      - destruct touches as [|[? ?] ?]; cbn; auto.
      - unfold handleTouchMove. destruct (Qlt_le_dec _ _); [auto|].
        destruct touches as [|[? ?] ?]; cbn; auto. }
    unfold tier_scale, tier_deltaFactor. rewrite Hr. auto.
  - intros innerWidth innerHeight freshA freshB ->. reflexivity.
Qed.

(** ** The end-to-end scenario

    Rows evolve independently of each other, and on a row the clamped
    neighbour differences cancel under the weights [rowWeight]; so the two
    weighted sums of a row obey a closed two-dimensional recurrence, which
    is evaluated exactly on integers. *)

Lemma wsum_laplacian : forall f,
  wsum (fun i => f (clampZ (i + 2) 0 99) + f (clampZ (i - 2) 0 99) - 2 * f i) = 0.
Proof.
  intros f. unfold wsum, wsumOver, rowIndices.
  cbn -[IZR Rmult Rplus Rminus].
  ring.
Qed.

Lemma mix4_0 : forall a b, mix4 a b 0 = a.
Proof. intros [? ? ? ?] b. unfold mix4, mix. cbn. f_equal; lra. Qed.

Lemma rt_texture_on_grid : forall rt u v a b,
  u * IZR (rt_width rt) - 0.5 = IZR a ->
  v * IZR (rt_height rt) - 0.5 = IZR b ->
  rt_texture rt (Vec2 u v)
  = rt_texels rt (clampZ a 0 (rt_width rt - 1)) (clampZ b 0 (rt_height rt - 1)).
Proof.
  intros rt u v a b Ha Hb. unfold rt_texture. cbn [v2x v2y].
  rewrite Ha, Hb, !ZfloorZ.
  replace (IZR a - IZR a) with 0 by lra.
  replace (IZR b - IZR b) with 0 by lra.
  rewrite !mix4_0. reflexivity.
Qed.

Lemma clampZ_id : forall i n, (0 <= i <= n)%Z -> clampZ i 0 n = i.
Proof. intros. unfold clampZ. lia. Qed.

Lemma spec_step_on_grid : forall rt i j,
  dims rt = (100%Z, 100%Z) ->
  (0 <= i < 100)%Z -> (0 <= j < 100)%Z ->
  spec_step (rt_texture rt) (vec2_of_Z (100%Z, 100%Z)) (fragUv 100 100 i j)
  = spec_wave_update 0.432 (Hrow rt j i) (Vrow rt j i)
      (Hrow rt j (clampZ (i - 2) 0 99)) (Hrow rt j (clampZ (i + 2) 0 99)).
Proof.
  intros rt i j Hd Hi Hj.
  unfold dims in Hd. injection Hd as Hw Hh.
  unfold spec_step, spec_left, spec_right, spec_delta, spec_scale, spec_highTier, fragUv.
  unfold vec2_of_Z. cbn [v2x v2y fst snd].
  destruct (Rlt_dec 100 500) as [_|C]; [|lra].
  rewrite (rt_texture_on_grid rt _ _ i j).
  2:{ rewrite Hw. clear. lra. }
  2:{ rewrite Hh. lra. }
  rewrite (rt_texture_on_grid rt _ _ (i - 2) j).
  2:{ rewrite Hw, minus_IZR. lra. }
  2:{ rewrite Hh. lra. }
  rewrite (rt_texture_on_grid rt _ _ (i + 2) j).
  2:{ rewrite Hw, plus_IZR. lra. }
  2:{ rewrite Hh. lra. }
  rewrite Hw, Hh. change (100 - 1)%Z with 99%Z.
  rewrite !(clampZ_id j) by lia. rewrite (clampZ_id i) by lia.
  unfold Hrow, Vrow. f_equal. lra.
Qed.

Lemma animate_scenario : forall k now1 now2 s,
  scenario k s -> scenario (k + 1) (animate now1 now2 s).
Proof.
  intros k now1 now2 s (HA & HB & HR & HM & HF).
  unfold scenario, animate, renderInto, dims in *. cbn.
  injection HB as -> ->. rewrite HF. auto.
Qed.

Lemma animate_texel : forall k now1 now2 s i j,
  scenario k s ->
  rt_texels (rtA (animate now1 now2 s)) i j
  = simulationFragmentShader (rt_texture (rtA s)) (vec2_of_Q ((-10)%Q, (-10)%Q))
      (vec2_of_Z (100%Z, 100%Z)) (Q2R (now1 / 1000)) k (fragUv 100 100 i j).
Proof.
  intros k now1 now2 s i j (HA & HB & HR & HM & HF).
  unfold animate, renderInto, simPass, dims in *. cbn.
  injection HB as -> ->. rewrite HR, HM, HF. reflexivity.
Qed.

Lemma sentinel_off : v2x (vec2_of_Q ((-10)%Q, (-10)%Q)) <= 0.
Proof. unfold vec2_of_Q, Q2R. cbn. lra. Qed.

Lemma rt_texture_cleared : forall rt,
  (forall i j, rt_texels rt i j = Vec4 0 0 0 0) ->
  forall p, v4x (rt_texture rt p) = 0 /\ v4y (rt_texture rt p) = 0.
Proof.
  intros rt Hz p. unfold rt_texture. rewrite !Hz.
  unfold mix4, mix. cbn. split; lra.
Qed.

Lemma after_clear : forall now1 now2 s,
  scenario 0 s ->
  forall i j, rt_texels (rtA (animate now1 now2 s)) i j = Vec4 0 0 0 0.
Proof.
  intros now1 now2 s Hs i j.
  rewrite (animate_texel 0 now1 now2 s i j Hs), frame0_clears_any.
  unfold vec4_splat. reflexivity.
Qed.

Lemma after_impulse : forall now1 now2 s,
  scenario 1 s ->
  (forall i j, rt_texels (rtA s) i j = Vec4 0 0 0 0) ->
  forall i j,
    v4x (rt_texels (rtA (animate now1 now2 s)) i j)
    = spec_startImpulse 1 (fragUv 100 100 i j)
    /\ v4y (rt_texels (rtA (animate now1 now2 s)) i j) = 0.
Proof.
  intros now1 now2 s Hs Hz i j.
  rewrite (animate_texel 1 now1 now2 s i j Hs), shader_decompose by lia.
  cbn [v4x v4y].
  rewrite spec_step_cleared by (apply rt_texture_cleared; exact Hz).
  rewrite pointerImpulse_off by exact sentinel_off.
  cbn [fst snd]. split; lra.
Qed.

Lemma after_wave : forall k now1 now2 s i j,
  scenario k s -> (2 <= k)%Z ->
  (0 <= i < 100)%Z -> (0 <= j < 100)%Z ->
  let rt := rtA s in
  let next := spec_wave_update 0.432 (Hrow rt j i) (Vrow rt j i)
                (Hrow rt j (clampZ (i - 2) 0 99)) (Hrow rt j (clampZ (i + 2) 0 99)) in
  Hrow (rtA (animate now1 now2 s)) j i = fst next
  /\ Vrow (rtA (animate now1 now2 s)) j i = snd next.
Proof.
  intros k now1 now2 s i j Hs Hk Hi Hj. cbv zeta.
  assert (E : (k <? 2)%Z = false) by (apply Z.ltb_ge; lia).
  assert (T : rt_texels (rtA (animate now1 now2 s)) i j
              = simulationFragmentShader (rt_texture (rtA s))
                  (vec2_of_Q ((-10)%Q, (-10)%Q)) (vec2_of_Z (100%Z, 100%Z))
                  (Q2R (now1 / 1000)) k (fragUv 100 100 i j))
    by (apply animate_texel; exact Hs).
  rewrite shader_decompose in T by lia.
  rewrite spec_step_on_grid in T by (try apply Hs; lia).
  rewrite pointerImpulse_off in T by exact sentinel_off.
  unfold spec_startImpulse in T. rewrite E in T.
  split.
  - unfold Hrow at 1. rewrite T. cbn [v4x]. lra.
  - unfold Vrow at 1. rewrite T. reflexivity.
Qed.

Lemma rowIndices_range : forall i, In i rowIndices <-> (0 <= i < 100)%Z.
Proof.
  intros i. unfold rowIndices. rewrite in_map_iff. split.
  - intros (n & <- & Hn). apply in_seq in Hn. lia.
  - intros Hi. exists (Z.to_nat i). split; [lia|]. apply in_seq. lia.
Qed.

Lemma wsumOver_ext : forall l f g,
  (forall i, In i l -> f i = g i) -> wsumOver l f = wsumOver l g.
Proof.
  induction l as [|i l IH]; intros f g H; [reflexivity|].
  cbn. f_equal.
  - f_equal. apply H. left. reflexivity.
  - apply IH. intros k Hk. apply H. right. exact Hk.
Qed.

Lemma wsumOver_linear : forall l a b c f g h,
  wsumOver l (fun i => a * f i + b * g i + c * h i)
  = a * wsumOver l f + b * wsumOver l g + c * wsumOver l h.
Proof.
  induction l as [|i l IH]; intros; unfold wsumOver in *; cbn [fold_right]; [lra|].
  rewrite IH. lra.
Qed.

Lemma wsum_ext : forall f g,
  (forall i, (0 <= i < 100)%Z -> f i = g i) -> wsum f = wsum g.
Proof.
  intros f g H. apply wsumOver_ext. intros i Hi. apply H, rowIndices_range, Hi.
Qed.

Lemma wave_update_height : forall h v l r,
  fst (spec_wave_update 0.432 h v l r)
  = 0.999 * h + (0.999 * 0.432) * v + (0.999 * 0.432 * 0.216) * (r + l - 2 * h).
Proof. intros. unfold spec_wave_update. cbn [fst]. lra. Qed.

Lemma wave_update_velocity : forall h v l r,
  snd (spec_wave_update 0.432 h v l r)
  = (- (0.999136 * 0.00216)) * h
    + (0.999136 * (1 - 0.00216 * 0.432)) * v
    + (0.999136 * (0.216 - 0.00216 * 0.432 * 0.216)) * (r + l - 2 * h).
Proof. intros. unfold spec_wave_update. cbn [snd]. lra. Qed.

Lemma row_sums_step : forall k now1 now2 s j,
  scenario k s -> (2 <= k)%Z -> (0 <= j < 100)%Z ->
  rowHeightSum j (animate now1 now2 s)
  = 0.999 * (rowHeightSum j s + 0.432 * rowVelocitySum j s)
  /\ rowVelocitySum j (animate now1 now2 s)
     = 0.999136 * (rowVelocitySum j s
                   - 0.00216 * (rowHeightSum j s + 0.432 * rowVelocitySum j s)).
Proof.
  intros k now1 now2 s j Hs Hk Hj. unfold rowHeightSum, rowVelocitySum.
  pose proof (wsum_laplacian (Hrow (rtA s) j)) as HL.
  split.
  - rewrite (wsum_ext _
      (fun i => 0.999 * Hrow (rtA s) j i + (0.999 * 0.432) * Vrow (rtA s) j i
                + (0.999 * 0.432 * 0.216)
                  * (Hrow (rtA s) j (clampZ (i + 2) 0 99)
                     + Hrow (rtA s) j (clampZ (i - 2) 0 99) - 2 * Hrow (rtA s) j i))).
    + unfold wsum in *. rewrite wsumOver_linear, HL. lra.
    + intros i Hi.
      destruct (after_wave k now1 now2 s i j Hs Hk Hi Hj) as [-> _].
      apply wave_update_height.
  - rewrite (wsum_ext _
      (fun i => (- (0.999136 * 0.00216)) * Hrow (rtA s) j i
                + (0.999136 * (1 - 0.00216 * 0.432)) * Vrow (rtA s) j i
                + (0.999136 * (0.216 - 0.00216 * 0.432 * 0.216))
                  * (Hrow (rtA s) j (clampZ (i + 2) 0 99)
                     + Hrow (rtA s) j (clampZ (i - 2) 0 99) - 2 * Hrow (rtA s) j i))).
    + unfold wsum in *. rewrite wsumOver_linear, HL. lra.
    + intros i Hi.
      destruct (after_wave k now1 now2 s i j Hs Hk Hi Hj) as [_ ->].
      apply wave_update_velocity.
Qed.

Lemma impulse_on_row50 : forall i,
  (0 <= i < 100)%Z ->
  spec_startImpulse 1 (fragUv 100 100 i 50)
  = 2.5 * (1 - 2 * (((IZR i + 0.5) / 100 - 0.5) * ((IZR i + 0.5) / 100 - 0.5) + 0.000025)).
Proof.
  intros i [Hlo Hhi].
  apply IZR_le in Hlo. assert (Hhi' : IZR i <= 99) by (apply IZR_le; lia).
  unfold spec_startImpulse, centreDistSq, fragUv. cbn [v2x v2y Z.ltb Z.compare Pos.compare Pos.compare_cont].
  set (x := (IZR i + 0.5) / 100 - 0.5).
  assert (Hx : -0.495 <= x <= 0.495) by (unfold x; lra).
  replace ((50 + 0.5) / 100 - 0.5) with 0.005 by lra.
  destruct (Rlt_dec (x * x + 0.005 * 0.005) 0.25) as [_|C]; [lra|].
  exfalso. apply C. nra.
Qed.

Lemma impulse_row50_sum :
  wsum (fun i => 2.5 * (1 - 2 * (((IZR i + 0.5) / 100 - 0.5) * ((IZR i + 0.5) / 100 - 0.5)
                                 + 0.000025)))
  = 5291.4625.
Proof.
  unfold wsum, wsumOver, rowIndices.
  cbn -[IZR Rmult Rplus Rminus Rdiv].
  lra.
Qed.

Lemma zscale_pos : forall n, (0 < zscale n)%Z.
Proof. intros n. unfold zscale. apply Z.mul_pos_pos; [lia|]. apply Z.pow_pos_nonneg; lia. Qed.

Lemma zscale_succ : forall n, zscale (S n) = (100000000000000 * zscale n)%Z.
Proof.
  intros n. unfold zscale. rewrite Nat2Z.inj_succ, Z.pow_succ_r by lia. ring.
Qed.

Lemma rowInv_step : forall n now1 now2 s,
  rowInv n s -> rowInv (S n) (animate now1 now2 s).
Proof.
  intros n now1 now2 s (Hs & HS & HU).
  destruct (row_sums_step _ now1 now2 s 50 Hs ltac:(lia) ltac:(lia)) as [ES EU].
  split.
  - replace (2 + Z.of_nat (S n))%Z with (2 + Z.of_nat n + 1)%Z by lia.
    apply animate_scenario, Hs.
  - rewrite ES, EU, HS, HU. clear ES EU HS HU Hs.
    cbn [zrec]. destruct (zrec n) as [A B]. cbn [zstep fst snd].
    rewrite zscale_succ.
    rewrite !mult_IZR, minus_IZR, !mult_IZR, plus_IZR, !mult_IZR.
    unfold Rdiv. rewrite !Rinv_mult.
    split; lra.
Qed.

Lemma run_frames_snoc : forall ts t s,
  run (frames (ts ++ [t])) s = animate (fst t) (snd t) (run (frames ts) s).
Proof.
  intros ts t s. unfold run, frames. rewrite map_app, fold_left_app. reflexivity.
Qed.

Lemma run_frames_scenario : forall ts s,
  scenario 0 s -> scenario (Z.of_nat (length ts)) (run (frames ts) s).
Proof.
  induction ts as [|t ts IH] using rev_ind; intros s Hs; [exact Hs|].
  rewrite run_frames_snoc, length_app, Nat2Z.inj_add.
  apply animate_scenario, IH, Hs.
Qed.

Lemma snoc_of_length : forall (A : Type) (l : list A) n,
  length l = S n -> exists l' x, l = l' ++ [x] /\ length l' = n.
Proof.
  intros A l n Hl.
  destruct (exists_last (l := l)) as (l' & x & ->).
  - intros ->. discriminate Hl.
  - exists l', x. split; [reflexivity|].
    rewrite length_app in Hl. cbn in Hl. lia.
Qed.

Lemma after_one_frame : forall s ts,
  scenario 0 s -> length ts = 1%nat ->
  forall i j, rt_texels (rtA (run (frames ts) s)) i j = Vec4 0 0 0 0.
Proof.
  intros s ts Hs Hl.
  destruct ts as [|t [|? ?]]; try discriminate Hl.
  intros i j. apply (after_clear (fst t) (snd t) s Hs).
Qed.

Lemma after_two_frames : forall s ts,
  scenario 0 s -> length ts = 2%nat ->
  forall i j,
    v4x (rt_texels (rtA (run (frames ts) s)) i j) = spec_startImpulse 1 (fragUv 100 100 i j)
    /\ v4y (rt_texels (rtA (run (frames ts) s)) i j) = 0.
Proof.
  intros s ts Hs Hl.
  destruct ts as [|t1 [|t2 [|? ?]]]; try discriminate Hl.
  intros i j. cbn [frames map run fold_left handle].
  apply after_impulse.
  - apply (animate_scenario 0), Hs.
  - apply after_clear, Hs.
Qed.

Lemma rowInv_start : forall s ts,
  scenario 0 s -> length ts = 2%nat -> rowInv 0 (run (frames ts) s).
Proof.
  intros s ts Hs Hl. split; [|split].
  - replace (2 + Z.of_nat 0)%Z with (Z.of_nat (length ts)) by (rewrite Hl; reflexivity).
    apply run_frames_scenario, Hs.
  - unfold rowHeightSum.
    rewrite (wsum_ext _ (fun i => 2.5 * (1 - 2 * (((IZR i + 0.5) / 100 - 0.5)
                                                   * ((IZR i + 0.5) / 100 - 0.5) + 0.000025)))).
    + rewrite impulse_row50_sum. cbn. lra.
    + intros i Hi. unfold Hrow.
      destruct (after_two_frames s ts Hs Hl i 50) as [-> _].
      apply impulse_on_row50, Hi.
  - unfold rowVelocitySum.
    rewrite (wsum_ext _ (fun _ => 0)).
    + unfold wsum, wsumOver, rowIndices. cbn -[IZR Rmult Rplus]. lra.
    + intros i Hi. unfold Vrow.
      destruct (after_two_frames s ts Hs Hl i 50) as [_ ->]. reflexivity.
Qed.

Lemma rowInv_run : forall n s ts,
  scenario 0 s -> length ts = (2 + n)%nat -> rowInv n (run (frames ts) s).
Proof.
  induction n as [|n IH]; intros s ts Hs Hl.
  - apply rowInv_start; assumption.
  - destruct (snoc_of_length _ ts (2 + n) Hl) as (ts' & t & -> & Hl').
    rewrite run_frames_snoc. apply rowInv_step, IH; assumption.
Qed.

Lemma rowWeight_nonneg : forall i, In i rowIndices -> (0 <= rowWeight i)%Z.
Proof.
  assert (H : forallb (fun i => (0 <=? rowWeight i)%Z) rowIndices = true) by reflexivity.
  intros i Hi. rewrite forallb_forall in H. apply Z.leb_le, H, Hi.
Qed.

Lemma wsumOver_high_texel : forall l f c,
  (forall i, In i l -> (0 <= rowWeight i)%Z) ->
  wsumOver l (fun _ => 1) * c < Rabs (wsumOver l f) ->
  exists i, In i l /\ c < Rabs (f i).
Proof.
  induction l as [|i l IH]; intros f c Hw Hc; unfold wsumOver in *; cbn [fold_right] in *.
  - rewrite Rabs_R0 in Hc. lra.
  - destruct (Rlt_dec c (Rabs (f i))) as [Hi|Hi].
    + exists i. split; [left; reflexivity | exact Hi].
    + destruct (IH f c) as (k & Hk & Hck).
      * intros k Hk. apply Hw. right. exact Hk.
      * assert (Hwi : 0 <= IZR (rowWeight i)) by (apply IZR_le, Hw; left; reflexivity).
        pose proof (Rabs_triang (IZR (rowWeight i) * f i)
                      (fold_right (fun i acc => IZR (rowWeight i) * f i + acc) 0 l)) as Ht.
        rewrite Rabs_mult, (Rabs_pos_eq _ Hwi) in Ht.
        assert (IZR (rowWeight i) * Rabs (f i) <= IZR (rowWeight i) * c)
          by (apply Rmult_le_compat_l; lra).
        lra.
      * exists k. split; [right; exact Hk | exact Hck].
Qed.

Lemma weights_total : wsum (fun _ => 1) = 2550.
Proof. unfold wsum, wsumOver, rowIndices. cbn -[IZR Rmult Rplus]. lra. Qed.

Lemma row_not_settled : forall n s ts,
  scenario 0 s -> length ts = (2 + n)%nat ->
  (fst (zrec n) <? - (2550 * zscale n))%Z = true ->
  exists i, (0 <= i < 100)%Z /\ 1 < Rabs (v4x (rt_texels (rtA (run (frames ts) s)) i 50)).
Proof.
  intros n s ts Hs Hl Hz.
  destruct (rowInv_run n s ts Hs Hl) as (_ & HS & _).
  apply Z.ltb_lt in Hz. apply IZR_lt in Hz.
  rewrite opp_IZR, mult_IZR in Hz.
  assert (Hd : 0 < IZR (zscale n)) by (apply IZR_lt, zscale_pos).
  assert (Hsum : rowHeightSum 50 (run (frames ts) s) < - 2550).
  { rewrite HS. apply Rmult_lt_reg_r with (IZR (zscale n)); [exact Hd|].
    unfold Rdiv. rewrite Rmult_assoc, Rinv_l by lra. lra. }
  destruct (wsumOver_high_texel rowIndices (Hrow (rtA (run (frames ts) s)) 50) 1
              rowWeight_nonneg) as (i & Hi & Hhigh).
  - fold (wsum (fun _ => 1)). rewrite weights_total.
    unfold rowHeightSum, wsum in Hsum. rewrite Rabs_left by lra. lra.
  - exists i. split; [apply rowIndices_range, Hi | exact Hhigh].
Qed.

Lemma bzrec_spec : forall n,
  BigZ.to_Z (fst (bzrec n)) = fst (zrec n) /\ BigZ.to_Z (snd (bzrec n)) = snd (zrec n).
Proof.
  induction n as [|n [IHa IHb]]; [split; reflexivity|].
  cbn [bzrec zrec]. destruct (bzrec n) as [a b], (zrec n) as [A B].
  cbn [fst snd] in IHa, IHb. subst A B.
  unfold bzstep, zstep. cbn [fst snd].
  rewrite !BigZ.spec_mul, BigZ.spec_sub, !BigZ.spec_mul, BigZ.spec_add, !BigZ.spec_mul.
  split; reflexivity.
Qed.

Lemma bzscale_spec : forall n, BigZ.to_Z (bzscale n) = zscale n.
Proof.
  intros n. unfold bzscale, zscale.
  rewrite BigZ.spec_mul, BigZ.spec_pow, BigZ.spec_of_Z. reflexivity.
Qed.

Lemma zrec_below : forall n,
  BigZ.ltb (fst (bzrec n)) (- (2550 * bzscale n))%bigZ = true ->
  (fst (zrec n) <? - (2550 * zscale n))%Z = true.
Proof.
  intros n H.
  rewrite BigZ.spec_ltb, BigZ.spec_opp, BigZ.spec_mul, bzscale_spec in H.
  destruct (bzrec_spec n) as [E _]. rewrite E in H. exact H.
Qed.

Lemma zrec_498 : (fst (zrec 498) <? - (2550 * zscale 498))%Z = true.
Proof. apply zrec_below. vm_compute. reflexivity. Qed.

Lemma zrec_500 : (fst (zrec 500) <? - (2550 * zscale 500))%Z = true.
Proof. apply zrec_below. vm_compute. reflexivity. Qed.

Lemma startup_scenario : forall contentsA contentsB,
  scenario 0 (startup 240 240 1 contentsA contentsB).
Proof. intros. unfold scenario. repeat split; reflexivity. Qed.

Lemma clock_length : forall n, length (clock n) = n.
Proof. intros n. unfold clock. rewrite length_map, length_seq. reflexivity. Qed.

Lemma centre_impulse_positive : 0 < spec_startImpulse 1 (fragUv 100 100 50 50).
Proof.
  unfold spec_startImpulse, centreDistSq, fragUv.
  cbn [v2x v2y Z.ltb Z.compare Pos.compare Pos.compare_cont].
  decide_Rlt.
Qed.

Lemma corner_impulse_zero : spec_startImpulse 1 (fragUv 100 100 0 0) = 0.
Proof.
  unfold spec_startImpulse, centreDistSq, fragUv.
  cbn [v2x v2y Z.ltb Z.compare Pos.compare Pos.compare_cont].
  decide_Rlt.
Qed.

(** C4, as stated, fails in its last clause.  A phone-sized page (240 by 240
    pixels) simulates on a 100 by 100 field; after 500 turns of the loop with
    the pointer off the field the heights are not all below 1e-3, and they
    are not after 502 turns either. *)
Lemma not_settled_after_500 :
  scenario 0 phonePage
  /\ ~ settled (run (frames (clock 500)) phonePage)
  /\ ~ settled (run (frames (clock 502)) phonePage).
Proof.
  split; [apply startup_scenario|]. split.
  - intros Hset.
    destruct (row_not_settled 498 phonePage (clock 500)
                (startup_scenario cleared cleared)
                (clock_length 500) zrec_498) as (i & Hi & Hhigh).
    specialize (Hset i 50%Z Hi ltac:(lia)). lra.
  - intros Hset.
    destruct (row_not_settled 500 phonePage (clock 502)
                (startup_scenario cleared cleared)
                (clock_length 502) zrec_500) as (i & Hi & Hhigh).
    specialize (Hset i 50%Z Hi ltac:(lia)). lra.
Qed.

(** C4 (amended): from a 100 by 100 field with the frame counter at 0 and
    the pointer off the field, after 1 turn of the loop every texel is
    (0, 0, 0, 0); after 2 turns texel (50, 50) has positive height and texel
    (0, 0) has height 0; after 500 turns, and likewise after 502, the field
    has not settled: some texel of row 50 has a height above 1 in absolute
    value. *)
Theorem end_to_end_scenario :
  forall s ts later,
    scenario 0 s -> length ts = 500%nat -> length later = 2%nat ->
    (forall i j, rt_texels (rtA (run (frames (firstn 1 ts)) s)) i j = Vec4 0 0 0 0)
    /\ 0 < v4x (rt_texels (rtA (run (frames (firstn 2 ts)) s)) 50 50)
    /\ v4x (rt_texels (rtA (run (frames (firstn 2 ts)) s)) 0 0) = 0
    /\ (exists i, (0 <= i < 100)%Z
                  /\ 1 < Rabs (v4x (rt_texels (rtA (run (frames ts) s)) i 50)))
    /\ (exists i, (0 <= i < 100)%Z
                  /\ 1 < Rabs (v4x (rt_texels (rtA (run (frames (ts ++ later)) s)) i 50))).
Proof.
  intros s ts later Hs Hl Hl2.
  assert (H1 : length (firstn 1 ts) = 1%nat) by (rewrite length_firstn, Hl; reflexivity).
  assert (H2 : length (firstn 2 ts) = 2%nat) by (rewrite length_firstn, Hl; reflexivity).
  split; [apply after_one_frame; assumption|].
  split.
  { destruct (after_two_frames s _ Hs H2 50%Z 50%Z) as [-> _].
    apply centre_impulse_positive. }
  split.
  { destruct (after_two_frames s _ Hs H2 0%Z 0%Z) as [-> _].
    apply corner_impulse_zero. }
  split.
  - apply (row_not_settled 498 s ts Hs); [rewrite Hl; reflexivity | apply zrec_498].
  - apply (row_not_settled 500 s (ts ++ later) Hs); [|apply zrec_500].
    rewrite length_app, Hl, Hl2. reflexivity.
Qed.

Lemma end_to_end_scenario_witness :
  scenario 0 phonePage
  /\ 0 < v4x (rt_texels (rtA (run (frames (firstn 2 (clock 500))) phonePage)) 50 50).
Proof.
  split; [apply startup_scenario|].
  apply (end_to_end_scenario phonePage (clock 500) (clock 2)
           (startup_scenario cleared cleared)
           (clock_length 500) (clock_length 2)).
Defined.

(** ** What the step at frame 1 reads

    The loop runs the shader at [frame = 1] only right after it ran it at
    [frame = 0], so the texture that step samples is the cleared field: the
    hypothesis of [impulse_monotone] on the input is what the driver
    provides. *)

Lemma handle_frame_cleared : forall e s,
  (0 <= frame s)%Z ->
  (frame s = 1%Z -> forall i j, rt_texels (rtA s) i j = Vec4 0 0 0 0) ->
  (0 <= frame (handle e s))%Z
  /\ (frame (handle e s) = 1%Z ->
      forall i j, rt_texels (rtA (handle e s)) i j = Vec4 0 0 0 0).
Proof.
  intros e s H0 H1.
  destruct e as [now1 now2| | |touches ?|? touches ?| | ]; cbn; auto.
  - split; [lia|]. intros Hf i j.
    assert (E : frame s = 0%Z) by lia.
    unfold simPass. cbn. rewrite E. apply frame0_clears_any.
  - destruct touches as [|[? ?] ?]; cbn; auto.
  - unfold handleTouchMove. destruct (Qlt_le_dec _ _); [auto|].
    destruct touches as [|[? ?] ?]; cbn; auto.
  - split; [lia|]. intros Hf. discriminate Hf.
Qed.

Lemma frame1_reads_cleared : forall s,
  reachable s ->
  frame s = 1%Z ->
  forall p, v4x (rt_texture (rtA s) p) = 0 /\ v4y (rt_texture (rtA s) p) = 0.
Proof.
  intros s Hs.
  assert (H : (0 <= frame s)%Z
              /\ (frame s = 1%Z -> forall i j, rt_texels (rtA s) i j = Vec4 0 0 0 0)).
  { induction Hs as [w h r a b | e s Hs [IH0 IH1]].
    - cbn. split; [lia|]. intros C. discriminate C.
    - apply handle_frame_cleared; assumption. }
  intros Hf. apply rt_texture_cleared, H, Hf.
Qed.

Lemma tier_fixed_in_driver_only_witness :
  tier_scale (handle MouseLeave desktopPage) = tier_scale desktopPage.
Proof.
  apply (tier_fixed_in_driver_only MouseLeave desktopPage).
  reflexivity.
Defined.

(** * Further properties of the code *)

(** ** Clearing, forcing and linearity of the step *)

Lemma rt_texture_cleared_all : forall rt,
  (forall i j, rt_texels rt i j = Vec4 0 0 0 0) ->
  forall p, rt_texture rt p = Vec4 0 0 0 0.
Proof.
  intros rt Hz p. unfold rt_texture. rewrite !Hz.
  unfold mix4, mix. cbn. f_equal; lra.
Qed.

Lemma render_cleared : forall field time uv,
  (forall p, field p = Vec4 0 0 0 0) ->
  renderFragmentShader field time uv = Vec4 0 0 0 0.
Proof.
  intros field time uv Hz. unfold renderFragmentShader, texture2D.
  rewrite !Hz. cbn [v4y v4z]. unfold customGreen, customBlue. cbn [v3x v3y v3z].
  rewrite Rmax_left by lra. f_equal; lra.
Qed.

Lemma animate_frame0 : forall now1 now2 s,
  frame s = 0%Z ->
  (forall i j, rt_texels (rtA (animate now1 now2 s)) i j = Vec4 0 0 0 0)
  /\ (forall uv, screen (animate now1 now2 s) uv = Vec4 0 0 0 0).
Proof.
  intros now1 now2 s Hf.
  assert (Hz : forall i j, rt_texels (rtA (animate now1 now2 s)) i j = Vec4 0 0 0 0).
  { intros i j. cbn. unfold simPass. cbn. rewrite Hf. apply frame0_clears_any. }
  split; [exact Hz|].
  intros uv. cbn. apply render_cleared. intros p.
  apply rt_texture_cleared_all. exact Hz.
Qed.

(** X1.  The first animation frame after the page starts, and the first one
    after any resize, writes (0, 0, 0, 0) to every texel of the field and
    draws a fully transparent black canvas, whatever the render targets held
    and wherever the pointer is. *)
Theorem first_frame_is_clear :
  forall now1 now2,
    (forall innerWidth innerHeight devicePixelRatio contentsA contentsB,
       let s := animate now1 now2
                  (startup innerWidth innerHeight devicePixelRatio contentsA contentsB) in
       (forall i j, rt_texels (rtA s) i j = Vec4 0 0 0 0)
       /\ (forall uv, screen s uv = Vec4 0 0 0 0))
    /\ (forall innerWidth innerHeight freshA freshB s0,
          let s := animate now1 now2 (resize innerWidth innerHeight freshA freshB s0) in
          (forall i j, rt_texels (rtA s) i j = Vec4 0 0 0 0)
          /\ (forall uv, screen s uv = Vec4 0 0 0 0)).
Proof.
  intros now1 now2. split; intros; apply animate_frame0; reflexivity.
Qed.

Lemma clamp_unit : forall x, 0 <= clamp x 0 1 <= 1.
Proof.
  intros x. unfold clamp. split.
  - apply Rmin_glb; [apply Rmax_r | lra].
  - apply Rmin_r.
Qed.

Lemma smoothstep_unit : forall e0 e1 x, 0 <= smoothstep e0 e1 x <= 1.
Proof.
  intros e0 e1 x. unfold smoothstep.
  pose proof (clamp_unit ((x - e0) / (e1 - e0))) as [H0 H1].
  set (t := clamp ((x - e0) / (e1 - e0)) 0 1) in *.
  assert (Ht : 0 <= t * t) by (apply Rmult_le_pos; lra).
  split.
  - apply Rmult_le_pos; lra.
  - assert (Hq : 0 <= (1 - t) * (1 - t) * (1 + 2 * t)).
    { apply Rmult_le_pos; [apply Rmult_le_pos|]; lra. }
    replace ((1 - t) * (1 - t) * (1 + 2 * t)) with (1 - t * t * (3 - 2 * t)) in Hq by ring.
    lra.
Qed.

Lemma smoothstep_core : forall x, x <= 0.005 -> smoothstep 0.02 0.005 x = 1.
Proof.
  intros x Hx. unfold smoothstep, clamp.
  assert (H : 1 <= (x - 0.02) / (0.005 - 0.02)).
  { lra. }
  rewrite Rmax_left by lra. rewrite Rmin_right by lra. lra.
Qed.

Lemma pointerContribution_value : forall field mouse resolution time frameIndex uv,
  frameIndex <> 0%Z ->
  pointerContribution field mouse resolution time frameIndex uv
  = spec_pointerImpulse mouse resolution uv.
Proof.
  intros. unfold pointerContribution. rewrite !shader_decompose by assumption.
  cbn [v4x]. rewrite (pointerImpulse_off (Vec2 (-10) (-10))) by (simpl; lra). lra.
Qed.

(** X2.  The height a pointer adds to a texel in one step is between 0 and
    1.2; from the second frame on, a texel within 0.005 of an on-field
    pointer (squared distance at most 0.000025) receives exactly 1.2. *)
Theorem pointer_adds_at_most_1_2 :
  forall field mouse resolution time frameIndex uv,
    0 <= pointerContribution field mouse resolution time frameIndex uv <= 1.2
    /\ (frameIndex <> 0%Z -> 0 < v2x mouse ->
        pointerDistSq mouse resolution uv <= 0.000025 ->
        pointerContribution field mouse resolution time frameIndex uv = 1.2).
Proof.
  intros field mouse resolution time frameIndex uv.
  destruct (Z.eq_dec frameIndex 0) as [-> | Hf].
  - split; [|intros C; contradiction].
    unfold pointerContribution. rewrite !frame0_clears_any. cbn. lra.
  - rewrite pointerContribution_value by exact Hf.
    unfold spec_pointerImpulse. split.
    + pose proof (smoothstep_unit 0.02 0.005 (sqrt (pointerDistSq mouse resolution uv))).
      decide_Rlt.
    + intros _ Hm Hd.
      assert (Hs : sqrt (pointerDistSq mouse resolution uv) <= 0.005).
      { replace 0.005 with (sqrt (0.005 * 0.005)) by (apply sqrt_square; lra).
        apply sqrt_le_1_alt. lra. }
      rewrite smoothstep_core by exact Hs. decide_Rlt.
Qed.

Lemma pointer_adds_at_most_1_2_witness :
  pointerContribution clearedField (Vec2 50 50) (Vec2 100 100) 0 2 (Vec2 0.5 0.5) = 1.2.
Proof.
  apply (proj2 (pointer_adds_at_most_1_2 clearedField (Vec2 50 50) (Vec2 100 100) 0 2
                  (Vec2 0.5 0.5))).
  - discriminate.
  - simpl; lra.
  - unfold pointerDistSq; simpl; lra.
Defined.

(** X3.  The pointer only ever changes the height channel: the velocity and
    the two derivative channels a step writes are the same for every pointer
    position, at every frame. *)
Theorem pointer_moves_height_only :
  forall field mouse1 mouse2 resolution time frameIndex uv,
    let out1 := simulationFragmentShader field mouse1 resolution time frameIndex uv in
    let out2 := simulationFragmentShader field mouse2 resolution time frameIndex uv in
    v4y out1 = v4y out2 /\ v4z out1 = v4z out2 /\ v4w out1 = v4w out2.
Proof.
  intros field mouse1 mouse2 resolution time frameIndex uv. cbv zeta.
  destruct (Z.eq_dec frameIndex 0) as [-> | Hf].
  - rewrite !frame0_clears_any. auto.
  - rewrite !shader_decompose by exact Hf. auto.
Qed.

(** X4.  The start-up impulse has a rim: over a cleared field with the
    pointer off, the frame-1 step lifts every texel whose squared distance to
    the centre is below 0.25 to a height above 1.25 and at most 2.5, and
    leaves every other texel at exactly 0. *)
Theorem start_impulse_has_a_rim :
  forall field mouse resolution time uv,
    v2x mouse <= 0 ->
    (forall p, v4x (field p) = 0 /\ v4y (field p) = 0) ->
    let h := v4x (simulationFragmentShader field mouse resolution time 1 uv) in
    (centreDistSq uv < 0.25 -> 1.25 < h <= 2.5)
    /\ (0.25 <= centreDistSq uv -> h = 0).
Proof.
  intros field mouse resolution time uv Hm Hz. cbv zeta.
  rewrite shader_decompose by lia. cbn [v4x].
  rewrite spec_step_cleared by exact Hz.
  rewrite pointerImpulse_off by exact Hm.
  unfold spec_startImpulse. cbn [fst Z.ltb Z.compare Pos.compare Pos.compare_cont].
  assert (Hd : 0 <= centreDistSq uv).
  { unfold centreDistSq.
    pose proof (Rle_0_sqr (v2x uv - 0.5)). pose proof (Rle_0_sqr (v2y uv - 0.5)).
    unfold Rsqr in *. lra. }
  split; intros H; decide_Rlt.
Qed.

Lemma start_impulse_has_a_rim_witness :
  1.25 < v4x centreTexelAtFrame1 <= 2.5.
Proof.
  apply (proj1 (start_impulse_has_a_rim clearedField (Vec2 (-10) (-10)) (Vec2 100 100) 0
                  (Vec2 0.5 0.5)
                  ltac:(simpl; lra) ltac:(intros p; split; reflexivity))).
  unfold centreDistSq; simpl; lra.
Defined.

(** X5.  Without forcing the step is linear: from frame 2 on and with the
    pointer off, the step applied to the combination [a * f + b * g] of two
    fields is, in all four channels, the same combination of the steps
    applied to [f] and to [g]. *)
Theorem step_is_linear_without_forcing :
  forall a b f g mouse resolution time frameIndex uv,
    (2 <= frameIndex)%Z ->
    v2x mouse <= 0 ->
    let outF := simulationFragmentShader f mouse resolution time frameIndex uv in
    let outG := simulationFragmentShader g mouse resolution time frameIndex uv in
    simulationFragmentShader (addField (scaleField a f) (scaleField b g))
      mouse resolution time frameIndex uv
    = Vec4 (a * v4x outF + b * v4x outG) (a * v4y outF + b * v4y outG)
           (a * v4z outF + b * v4z outG) (a * v4w outF + b * v4w outG).
Proof.
  intros a b f g mouse resolution time frameIndex uv Hf Hm. cbv zeta.
  rewrite !shader_decompose by lia.
  rewrite pointerImpulse_off by exact Hm.
  unfold spec_startImpulse.
  assert (E : (frameIndex <? 2)%Z = false) by (apply Z.ltb_ge; lia).
  rewrite E.
  unfold spec_step, spec_wave_update, spec_left, spec_right, addField, scaleField.
  cbn [v4x v4y v4z v4w fst snd].
  set (d := spec_delta resolution).
  f_equal; ring.
Qed.

Lemma step_is_linear_without_forcing_witness :
  simulationFragmentShader (addField (scaleField 2 unitField) (scaleField 3 stripedField))
    (Vec2 (-10) (-10)) (Vec2 100 100) 0 2 (Vec2 0.5 0.5)
  = Vec4
      (2 * v4x (simulationFragmentShader unitField (Vec2 (-10) (-10)) (Vec2 100 100) 0 2
                  (Vec2 0.5 0.5))
       + 3 * v4x (simulationFragmentShader stripedField (Vec2 (-10) (-10)) (Vec2 100 100)
                    0 2 (Vec2 0.5 0.5)))
      (2 * v4y (simulationFragmentShader unitField (Vec2 (-10) (-10)) (Vec2 100 100) 0 2
                  (Vec2 0.5 0.5))
       + 3 * v4y (simulationFragmentShader stripedField (Vec2 (-10) (-10)) (Vec2 100 100)
                    0 2 (Vec2 0.5 0.5)))
      (2 * v4z (simulationFragmentShader unitField (Vec2 (-10) (-10)) (Vec2 100 100) 0 2
                  (Vec2 0.5 0.5))
       + 3 * v4z (simulationFragmentShader stripedField (Vec2 (-10) (-10)) (Vec2 100 100)
                    0 2 (Vec2 0.5 0.5)))
      (2 * v4w (simulationFragmentShader unitField (Vec2 (-10) (-10)) (Vec2 100 100) 0 2
                  (Vec2 0.5 0.5))
       + 3 * v4w (simulationFragmentShader stripedField (Vec2 (-10) (-10)) (Vec2 100 100)
                    0 2 (Vec2 0.5 0.5))).
Proof.
  apply (step_is_linear_without_forcing 2 3 unitField stripedField (Vec2 (-10) (-10))
           (Vec2 100 100) 0 2 (Vec2 0.5 0.5)).
  - lia.
  - simpl; lra.
Defined.

(** X24.  A step reads its own row only, and only height and velocity: if
    two fields agree in the height and velocity channels along the
    horizontal line through a texel, the step writes the same four channels
    at that texel for both, whatever the fields hold elsewhere or in their
    derivative channels, and whatever the two time uniforms are. *)
Theorem step_reads_its_own_row_only :
  forall field1 field2 mouse resolution time1 time2 frameIndex uv,
    (forall p, v2y p = v2y uv ->
       v4x (field1 p) = v4x (field2 p) /\ v4y (field1 p) = v4y (field2 p)) ->
    simulationFragmentShader field1 mouse resolution time1 frameIndex uv
    = simulationFragmentShader field2 mouse resolution time2 frameIndex uv.
Proof.
  intros field1 field2 mouse resolution time1 time2 frameIndex uv H.
  destruct (Z.eq_dec frameIndex 0) as [-> | Hf].
  - rewrite !frame0_clears_any. reflexivity.
  - rewrite !shader_decompose by exact Hf.
    unfold spec_step, spec_left, spec_right.
    destruct (H uv eq_refl) as [-> ->].
    destruct (H (Vec2 (v2x uv - spec_scale resolution / v2x resolution) (v2y uv)) eq_refl)
      as [-> _].
    destruct (H (Vec2 (v2x uv + spec_scale resolution / v2x resolution) (v2y uv)) eq_refl)
      as [-> _].
    reflexivity.
Qed.

Lemma step_reads_its_own_row_only_witness :
  simulationFragmentShader unitField (Vec2 50 50) (Vec2 100 100) 0 2 (Vec2 0.5 0.5)
  = simulationFragmentShader stripedField (Vec2 50 50) (Vec2 100 100) 1 2 (Vec2 0.5 0.5).
Proof.
  apply (step_reads_its_own_row_only unitField stripedField (Vec2 50 50) (Vec2 100 100)
           0 1 2 (Vec2 0.5 0.5)).
  intros p Hp. unfold stripedField, unitField. rewrite Hp. cbn [v2y].
  destruct (Rle_dec 0.5 0.75) as [_ | C]; [split; reflexivity | exfalso; lra].
Defined.

Lemma render_reads_three_samples :
  forall field1 field2 time vUv,
    v4z (field1 vUv) = v4z (field2 vUv) ->
    v4w (field1 vUv) = v4w (field2 vUv) ->
    v4y (field1 (vec2_add vUv (renderOffsetG (field2 vUv) time)))
    = v4y (field2 (vec2_add vUv (renderOffsetG (field2 vUv) time))) ->
    v4z (field1 (vec2_add vUv (renderOffsetB (field2 vUv) time)))
    = v4z (field2 (vec2_add vUv (renderOffsetB (field2 vUv) time))) ->
    renderFragmentShader field1 time vUv = renderFragmentShader field2 time vUv.
Proof.
  intros field1 field2 time vUv Hz Hw Hg Hb.
  assert (EG : renderOffsetG (field1 vUv) time = renderOffsetG (field2 vUv) time).
  { unfold renderOffsetG, renderOffset, renderNormal. rewrite Hz, Hw. reflexivity. }
  assert (EB : renderOffsetB (field1 vUv) time = renderOffsetB (field2 vUv) time).
  { unfold renderOffsetB, renderOffset, renderNormal. rewrite Hz, Hw. reflexivity. }
  unfold renderFragmentShader, texture2D. cbv zeta.
  rewrite EG, EB, Hg, Hb. reflexivity.
Qed.

(** X25.  The canvas never shows the height channel: replacing the height of
    every texel of the field by anything at all leaves every pixel the
    presentation shader draws unchanged. *)
Theorem canvas_never_shows_the_height :
  forall h field time vUv,
    renderFragmentShader (withHeight h field) time vUv
    = renderFragmentShader field time vUv.
Proof.
  intros. apply render_reads_three_samples; reflexivity.
Qed.

(** ** The pointer listeners and the field size *)

(** X6.  Touch moves are throttled: any event either leaves [lastTouchTime]
    alone or advances it by at least 16 ms, and a touch move that arrives
    less than 16 ms after the last accepted one changes nothing at all. *)
Theorem touch_moves_are_16ms_apart :
  forall e s,
    (lastTouchTime (handle e s) = lastTouchTime s
     \/ (lastTouchTime s + 16 <= lastTouchTime (handle e s))%Q)
    /\ (forall now touches rect,
          e = TouchMove now touches rect ->
          (now - lastTouchTime s < 16)%Q ->
          handle e s = s).
Proof.
  intros e s. split.
  - destruct e as [ | | |touches ?|now touches ?| | ]; cbn [handle];
      try (left; reflexivity).
    + destruct touches as [|[? ?] ?]; left; reflexivity.
    + unfold handleTouchMove. destruct (Qlt_le_dec _ _) as [Hlt|Hge]; [auto|].
      right.
      destruct touches as [|[? ?] ?];
        unfold updateMousePosition, set_mouse, set_lastTouchTime;
        cbn [lastTouchTime]; Lqa.lra.
  - intros now touches rect -> Hlt. cbn. unfold handleTouchMove.
    destruct (Qlt_le_dec _ _) as [_|Hge]; [reflexivity|]. Lqa.lra.
Qed.

Lemma touch_moves_are_16ms_apart_witness :
  handle (TouchMove 10 [(500, 400)%Q] canvasRect) smallDesktopPage = smallDesktopPage.
Proof.
  apply (proj2 (touch_moves_are_16ms_apart (TouchMove 10 [(500, 400)%Q] canvasRect)
                  smallDesktopPage) 10%Q [(500, 400)%Q] canvasRect).
  - reflexivity.
  - reflexivity.
Defined.

(** X7.  Only the first touch point counts: a touch start or touch move with
    several touches behaves as with its first touch alone; with no touch at
    all a touch move leaves the pointer where it was and a touch start
    changes nothing. *)
Theorem only_first_touch_counts :
  forall now rect s,
    (forall t rest,
       handle (TouchMove now (t :: rest) rect) s = handle (TouchMove now [t] rect) s
       /\ handle (TouchStart (t :: rest) rect) s = handle (TouchStart [t] rect) s)
    /\ uMouse (handle (TouchMove now [] rect) s) = uMouse s
    /\ handle (TouchStart [] rect) s = s.
Proof.
  intros now rect s. split; [|split].
  - intros [cx cy] rest. cbn. unfold handleTouchMove.
    destruct (Qlt_le_dec _ _); split; reflexivity.
  - cbn. unfold handleTouchMove. destruct (Qlt_le_dec _ _); reflexivity.
  - reflexivity.
Qed.

Lemma unit_ratio : forall a w : Q,
  (0 < w)%Q -> (0 <= a)%Q -> (a <= w)%Q -> (0 <= a / w)%Q /\ (a / w <= 1)%Q.
Proof.
  intros a w Hw H0 H1. split.
  - apply Qle_shift_div_l; [exact Hw|]. Lqa.lra.
  - apply Qle_shift_div_r; [exact Hw|]. Lqa.lra.
Qed.

(** X8.  Before any resize the pointer mapping sends the canvas rectangle
    onto the field: a position inside a rectangle of positive size lands in
    [0, simWidth] x [0, simHeight], the left and right edges land on x = 0
    and x = simWidth, and the vertical axis is flipped (top edge on
    y = simHeight, bottom edge on y = 0). *)
Theorem pointer_maps_canvas_onto_field :
  forall clientX clientY rect s,
    (0 < rect_width rect)%Q -> (0 < rect_height rect)%Q ->
    (0 <= simWidth s)%Z -> (0 <= simHeight s)%Z ->
    let m := uMouse (updateMousePosition clientX clientY rect s) in
    ((rect_left rect <= clientX)%Q -> (clientX <= rect_left rect + rect_width rect)%Q ->
       (0 <= fst m)%Q /\ (fst m <= inject_Z (simWidth s))%Q)
    /\ ((rect_top rect <= clientY)%Q -> (clientY <= rect_top rect + rect_height rect)%Q ->
          (0 <= snd m)%Q /\ (snd m <= inject_Z (simHeight s))%Q)
    /\ ((clientX == rect_left rect)%Q -> (fst m == 0)%Q)
    /\ ((clientX == rect_left rect + rect_width rect)%Q -> (fst m == inject_Z (simWidth s))%Q)
    /\ ((clientY == rect_top rect)%Q -> (snd m == inject_Z (simHeight s))%Q)
    /\ ((clientY == rect_top rect + rect_height rect)%Q -> (snd m == 0)%Q).
Proof.
  intros clientX clientY rect s Hw Hh HW HH. cbv zeta.
  unfold updateMousePosition. cbn [uMouse set_mouse fst snd].
  assert (HWq : (0 <= inject_Z (simWidth s))%Q)
    by (change 0%Q with (inject_Z 0); rewrite <- Zle_Qle; exact HW).
  assert (HHq : (0 <= inject_Z (simHeight s))%Q)
    by (change 0%Q with (inject_Z 0); rewrite <- Zle_Qle; exact HH).
  set (W := inject_Z (simWidth s)) in *. set (H := inject_Z (simHeight s)) in *.
  assert (Hwn : ~ (rect_width rect == 0)%Q) by Lqa.lra.
  assert (Hhn : ~ (rect_height rect == 0)%Q) by Lqa.lra.
  split; [|split; [|split; [|split; [|split]]]].
  - intros H0 H1.
    destruct (unit_ratio (clientX - rect_left rect) (rect_width rect) Hw) as [Ha Hb]; try Lqa.lra.
    set (r := ((clientX - rect_left rect) / rect_width rect)%Q) in *. split; Lqa.nra.
  - intros H0 H1.
    destruct (unit_ratio (clientY - rect_top rect) (rect_height rect) Hh) as [Ha Hb]; try Lqa.lra.
    set (r := ((clientY - rect_top rect) / rect_height rect)%Q) in *. split; Lqa.nra.
  - intros E. rewrite E. field. exact Hwn.
  - intros E. rewrite E. field. exact Hwn.
  - intros E. rewrite E. field. exact Hhn.
  - intros E. rewrite E. field. exact Hhn.
Qed.

Lemma pointer_maps_canvas_onto_field_witness :
  (0 <= fst (uMouse (updateMousePosition 250 200 canvasRect smallDesktopPage)))%Q
  /\ (fst (uMouse (updateMousePosition 250 200 canvasRect smallDesktopPage))
      <= inject_Z (simWidth smallDesktopPage))%Q.
Proof.
  apply (proj1 (pointer_maps_canvas_onto_field 250 200 canvasRect smallDesktopPage
                  ltac:(reflexivity) ltac:(reflexivity)
                  ltac:(vm_compute; discriminate) ltac:(vm_compute; discriminate))).
  - vm_compute; discriminate.
  - vm_compute; discriminate.
Defined.

(** X9.  A pointer on or left of the canvas's left edge is treated as no
    pointer: the x coordinate the mapping stores is not positive, which the
    shader reads as off-field, so no texel receives any height from it. *)
Theorem pointer_at_left_edge_is_off_field :
  forall clientX clientY rect s field resolution time frameIndex uv,
    (clientX <= rect_left rect)%Q ->
    (0 < rect_width rect)%Q ->
    (0 <= simWidth s)%Z ->
    pointerContribution field
      (vec2_of_Q (uMouse (updateMousePosition clientX clientY rect s)))
      resolution time frameIndex uv = 0.
Proof.
  intros clientX clientY rect s field resolution time frameIndex uv Hx Hw HW.
  assert (Hm : v2x (vec2_of_Q (uMouse (updateMousePosition clientX clientY rect s))) <= 0).
  { unfold updateMousePosition, vec2_of_Q. cbn [uMouse set_mouse fst v2x].
    replace 0 with (Q2R 0) by (unfold Q2R; cbn; lra).
    apply Qle_Rle.
    assert (HWq : (0 <= inject_Z (simWidth s))%Q)
      by (change 0%Q with (inject_Z 0); rewrite <- Zle_Qle; exact HW).
    assert (Hr : ((clientX - rect_left rect) / rect_width rect <= 0)%Q).
    { apply Qle_shift_div_r; [exact Hw|]. Lqa.lra. }
    set (r := ((clientX - rect_left rect) / rect_width rect)%Q) in *.
    set (W := inject_Z (simWidth s)) in *. Lqa.nra. }
  destruct (Z.eq_dec frameIndex 0) as [-> | Hf].
  - unfold pointerContribution. rewrite !frame0_clears_any. cbn. lra.
  - rewrite pointerContribution_value by exact Hf.
    apply pointerImpulse_off, Hm.
Qed.

Lemma pointer_at_left_edge_is_off_field_witness :
  pointerContribution clearedField
    (vec2_of_Q (uMouse (updateMousePosition 0 400 canvasRect smallDesktopPage)))
    (Vec2 500 400) 0 2 (Vec2 0 0.5) = 0.
Proof.
  apply (pointer_at_left_edge_is_off_field 0 400 canvasRect smallDesktopPage clearedField
           (Vec2 500 400) 0 2 (Vec2 0 0.5)).
  - vm_compute; discriminate.
  - reflexivity.
  - vm_compute; discriminate.
Defined.

Lemma sim_size_le : forall (w f : Z) (d : Q),
  (0 <= w < 2 ^ 31)%Z -> (0 < f <= 3)%Z -> (d <= inject_Z f)%Q ->
  (Qfloor (js_div (inject_Z (Qfloor (js_mul (inject_Z w) d))) (inject_Z f)) <= w)%Z.
Proof.
  intros w f d Hw Hf Hd. unfold js_mul, js_div.
  change (2 ^ 31)%Z with 2147483648%Z in Hw.
  assert (Hfq : (0 < inject_Z f)%Q)
    by (change 0%Q with (inject_Z 0); rewrite <- Zlt_Qlt; lia).
  assert (Hwq : (0 <= inject_Z w)%Q)
    by (change 0%Q with (inject_Z 0); rewrite <- Zle_Qle; lia).
  assert (H2 : (Qfloor (round64 (inject_Z w * d)) <= w * f)%Z).
  { apply floor_round64_le.
    - rewrite inject_Z_mult.
      set (W := inject_Z w) in *. set (F := inject_Z f) in *. Lqa.nra.
    - change (2 ^ 53)%Z with 9007199254740992%Z. nia. }
  set (A := Qfloor (round64 (inject_Z w * d))) in *. clearbody A.
  apply floor_round64_le.
  - apply Qle_shift_div_r; [exact Hfq|].
    rewrite <- inject_Z_mult, <- Zle_Qle. exact H2.
  - change (2 ^ 53)%Z with 9007199254740992%Z. lia.
Qed.

Lemma reachable_dpr_le_factor : forall s,
  reachable s -> (dpr s <= inject_Z (simResFactor s))%Q /\ (0 < simResFactor s <= 3)%Z.
Proof.
  induction 1 as [w h r a b | e s Hs IH].
  - cbn [startup dpr simResFactor]. destruct (w <? 768)%Z.
    + split; [|lia]. unfold Qle; cbn; lia.
    + split; [|lia]. apply Q.le_min_r.
  - rewrite handle_dpr, handle_simResFactor. exact IH.
Qed.

(** X10.  After a resize of any reachable session to a viewport of
    non-negative size, the field is no larger than the viewport in CSS
    pixels (the pixel ratio never exceeds the resolution divisor, and the
    rounding of the product and the quotient to doubles never passes an
    integer), and both render targets and the resolution uniform have the
    field's size.  [innerWidth] and [innerHeight] are in the range of the
    attribute, a 32-bit integer. *)
Theorem field_never_exceeds_viewport :
  forall s innerWidth innerHeight freshA freshB,
    reachable s ->
    (0 <= innerWidth < 2 ^ 31)%Z -> (0 <= innerHeight < 2 ^ 31)%Z ->
    let s' := handle (ResizeEvent innerWidth innerHeight freshA freshB) s in
    (rt_width (rtA s') <= innerWidth)%Z /\ (rt_height (rtA s') <= innerHeight)%Z
    /\ dims (rtB s') = dims (rtA s') /\ uResolution s' = dims (rtA s').
Proof.
  intros s w h fa fb Hs Hw Hh. cbv zeta.
  destruct (reachable_dpr_le_factor s Hs) as [Hd Hf].
  cbn. repeat split; apply sim_size_le; assumption.
Qed.

Lemma field_never_exceeds_viewport_witness :
  (rt_width (rtA (handle (ResizeEvent 2000 1600 cleared cleared) smallDesktopPage))
   <= 2000)%Z.
Proof.
  apply (field_never_exceeds_viewport smallDesktopPage 2000 1600 cleared cleared
           (reachable_startup 1000 800 1 cleared cleared)).
  - lia.
  - lia.
Defined.

(** X11.  At start-up, for a viewport of non-negative size (in the range
    of the attribute, a 32-bit integer) and any device pixel ratio, the
    field is no larger than the viewport in CSS pixels, and the dimensions
    the pointer mapping uses are the field's. *)
Theorem startup_field_fits_viewport :
  forall innerWidth innerHeight devicePixelRatio contentsA contentsB,
    (0 <= innerWidth < 2 ^ 31)%Z -> (0 <= innerHeight < 2 ^ 31)%Z ->
    let s := startup innerWidth innerHeight devicePixelRatio contentsA contentsB in
    (rt_width (rtA s) <= innerWidth)%Z /\ (rt_height (rtA s) <= innerHeight)%Z
    /\ simWidth s = rt_width (rtA s) /\ simHeight s = rt_height (rtA s).
Proof.
  intros w h r a b Hw Hh. cbv zeta.
  destruct (reachable_dpr_le_factor _ (reachable_startup w h r a b)) as [Hd Hf].
  cbn [startup dpr simResFactor] in Hd, Hf.
  cbn [startup rtA rt_width rt_height simWidth simHeight].
  repeat split; apply sim_size_le; assumption.
Qed.

Lemma startup_field_fits_viewport_witness :
  (rt_width (rtA desktopPage) <= 1200)%Z.
Proof.
  apply (startup_field_fits_viewport 1200 800 1 cleared cleared).
  - lia.
  - lia.
Defined.

(** X12.  A page that starts narrower than 768 pixels is mobile for the
    driver and low tier for the shader: its field is less than 500 wide, so
    the first steps use the neighbour offset 2 and the time step
    0.72 * 0.6 = 0.432. *)
Theorem mobile_page_starts_on_low_tier :
  forall innerWidth innerHeight devicePixelRatio contentsA contentsB,
    (innerWidth < 768)%Z ->
    let s := startup innerWidth innerHeight devicePixelRatio contentsA contentsB in
    isMobile s = true /\ tier_scale s = 2 /\ deltaBase * tier_deltaFactor s = 0.432.
Proof.
  intros w h r a b Hw. cbv zeta.
  assert (Hm : (w <? 768)%Z = true) by (apply Z.ltb_lt; exact Hw).
  assert (Hres : (fst (uResolution (startup w h r a b)) <? 500)%Z = true).
  { cbn [startup uResolution fst]. rewrite Hm.
    apply Z.ltb_lt. apply Z.le_lt_trans with 320%Z; [|lia].
    unfold js_mul, js_div.
    assert (H1 : (Qfloor (round64 (inject_Z w * 1.25)) <= 959)%Z).
    { apply floor_round64_le; [|split; [lia | reflexivity]].
      assert (Hq : (inject_Z w <= 767)%Q)
        by (change 767%Q with (inject_Z 767); rewrite <- Zle_Qle; lia).
      set (W := inject_Z w) in *. change (inject_Z 959) with 959%Q. Lqa.lra. }
    set (A := Qfloor (round64 (inject_Z w * 1.25))) in *. clearbody A.
    apply floor_round64_le; [|split; [lia | reflexivity]].
    apply Qle_shift_div_r; [reflexivity|].
    rewrite <- inject_Z_mult, <- Zle_Qle. lia. }
  rewrite tier_scale_value, tier_deltaFactor_value, Hres.
  cbn [startup isMobile]. rewrite Hm. unfold deltaBase. repeat split; lra.
Qed.

Lemma mobile_page_starts_on_low_tier_witness :
  isMobile phonePage = true /\ tier_scale phonePage = 2
  /\ deltaBase * tier_deltaFactor phonePage = 0.432.
Proof.
  apply (mobile_page_starts_on_low_tier 240 240 1 cleared cleared).
  lia.
Defined.

(** X13.  Mouse and touch events never touch the simulation: the two render
    targets, the frame counter, the resolution uniform, the canvas and the
    dimensions of the pointer mapping are the same after the event as
    before. *)
Theorem pointer_events_leave_the_simulation_alone :
  forall e s,
    is_pointer_event e = true ->
    let s' := handle e s in
    rtA s' = rtA s /\ rtB s' = rtB s /\ frame s' = frame s
    /\ uResolution s' = uResolution s /\ screen s' = screen s
    /\ simWidth s' = simWidth s /\ simHeight s' = simHeight s.
Proof.
  intros e s He. cbv zeta.
  destruct e as [ | | |touches ?|? touches ?| | ]; cbn in He; try discriminate;
    cbn [handle].
  - repeat split.
  - repeat split.
  - destruct touches as [|[? ?] ?]; repeat split.
  - unfold handleTouchMove. destruct (Qlt_le_dec _ _); [repeat split|].
    destruct touches as [|[? ?] ?]; repeat split.
  - repeat split.
Qed.

Lemma pointer_events_leave_the_simulation_alone_witness :
  rtA (handle (MouseMove 250 200 canvasRect) desktopPage) = rtA desktopPage.
Proof.
  apply (pointer_events_leave_the_simulation_alone (MouseMove 250 200 canvasRect)
           desktopPage).
  reflexivity.
Defined.

Lemma rt_texture_channels :
  forall rt1 rt2,
    rt_width rt1 = rt_width rt2 -> rt_height rt1 = rt_height rt2 ->
    (forall i j, v4y (rt_texels rt1 i j) = v4y (rt_texels rt2 i j)
                 /\ v4z (rt_texels rt1 i j) = v4z (rt_texels rt2 i j)
                 /\ v4w (rt_texels rt1 i j) = v4w (rt_texels rt2 i j)) ->
    forall p, v4y (rt_texture rt1 p) = v4y (rt_texture rt2 p)
              /\ v4z (rt_texture rt1 p) = v4z (rt_texture rt2 p)
              /\ v4w (rt_texture rt1 p) = v4w (rt_texture rt2 p).
Proof.
  intros rt1 rt2 Hw Hh H p. unfold rt_texture, mix4. cbv zeta. cbn [v4y v4z v4w].
  rewrite Hw, Hh.
  repeat split;
    repeat match goal with
    | |- context [rt_texels rt1 ?i ?j] =>
        first [ rewrite (proj1 (H i j))
              | rewrite (proj1 (proj2 (H i j)))
              | rewrite (proj2 (proj2 (H i j))) ]
    end; reflexivity.
Qed.

Lemma animate_screen_ignores_pointer :
  forall now1 now2 m t s uv,
    screen (animate now1 now2 (set_lastTouchTime t (set_mouse m s))) uv
    = screen (animate now1 now2 s) uv.
Proof.
  intros now1 now2 m t s uv. cbn [animate screen].
  assert (H : forall p,
    v4y (rt_texture (rtA (animate now1 now2 (set_lastTouchTime t (set_mouse m s)))) p)
    = v4y (rt_texture (rtA (animate now1 now2 s)) p)
    /\ v4z (rt_texture (rtA (animate now1 now2 (set_lastTouchTime t (set_mouse m s)))) p)
       = v4z (rt_texture (rtA (animate now1 now2 s)) p)
    /\ v4w (rt_texture (rtA (animate now1 now2 (set_lastTouchTime t (set_mouse m s)))) p)
       = v4w (rt_texture (rtA (animate now1 now2 s)) p)).
  { apply rt_texture_channels; [reflexivity | reflexivity |].
    intros i j. cbn. unfold simPass. cbn.
    destruct (Z.eq_dec (frame s) 0) as [E | E].
    - rewrite E, !frame0_clears_any. auto.
    - rewrite !shader_decompose by exact E. auto. }
  cbn [animate rtA] in H.
  apply render_reads_three_samples; apply H.
Qed.

(** X26.  A pointer event is invisible in the frame that follows it: the
    canvas drawn by the next animation frame is the same as if the event had
    not happened, since that step lets the pointer change heights only and
    the canvas does not show heights. *)
Theorem pointer_is_invisible_in_its_own_frame :
  forall e s now1 now2 uv,
    is_pointer_event e = true ->
    screen (handle (AnimationFrame now1 now2) (handle e s)) uv
    = screen (handle (AnimationFrame now1 now2) s) uv.
Proof.
  intros e s now1 now2 uv He.
  assert (Hm : forall m, screen (animate now1 now2 (set_mouse m s)) uv
                         = screen (animate now1 now2 s) uv).
  { intros m.
    rewrite <- (animate_screen_ignores_pointer now1 now2 m (lastTouchTime s) s uv).
    reflexivity. }
  destruct e as [ | | |touches ?|now touches ?| | ]; cbn in He; try discriminate;
    cbn [handle].
  - apply Hm.
  - apply Hm.
  - destruct touches as [|[? ?] ?]; [reflexivity | apply Hm].
  - unfold handleTouchMove. destruct (Qlt_le_dec _ _); [reflexivity|].
    destruct touches as [|[? ?] ?].
    + rewrite <- (animate_screen_ignores_pointer now1 now2 (uMouse s) now s uv).
      reflexivity.
    + apply animate_screen_ignores_pointer.
  - apply Hm.
Qed.

Lemma pointer_is_invisible_in_its_own_frame_witness :
  screen (handle (AnimationFrame 16 17) (handle (MouseMove 250 200 canvasRect) desktopPage))
    (Vec2 0.5 0.5)
  = screen (handle (AnimationFrame 16 17) desktopPage) (Vec2 0.5 0.5).
Proof.
  apply (pointer_is_invisible_in_its_own_frame (MouseMove 250 200 canvasRect) desktopPage
           16 17 (Vec2 0.5 0.5)).
  reflexivity.
Defined.

(** ** The letter effect *)

Lemma Qfloor_ge : forall (z : Z) (x : Q), (z <= Qfloor x)%Z <-> (inject_Z z <= x)%Q.
Proof.
  intros z x. split; intros H.
  - apply Qle_trans with (inject_Z (Qfloor x)); [|apply Qfloor_le].
    rewrite <- Zle_Qle. exact H.
  - rewrite <- (Qfloor_Z z). apply Qfloor_resp_le, H.
Qed.

Lemma Qfloor_lt : forall (z : Z) (x : Q), (Qfloor x < z)%Z <-> (x < inject_Z z)%Q.
Proof.
  intros z x. split; intros H.
  - apply Qnot_le_lt. intros C. apply Qfloor_ge in C. lia.
  - apply Z.nle_gt. intros C. apply Qfloor_ge in C. Lqa.lra.
Qed.

Lemma stroke_value : forall mouseX mouseY screenWidth screenHeight letterRect index n,
  webkitTextStrokeWidth
    (letterStyle mouseX mouseY screenWidth screenHeight letterRect index n)
  = Z.min 9 (Z.max 1
      (Qfloor ((inject_Z screenWidth / 2 - letterDistanceX mouseX letterRect)
               / (inject_Z screenWidth / 2) * 8) + 1)).
Proof. reflexivity. Qed.

Lemma ratio_le_1 : forall m d : Q, (0 < m)%Q -> (0 <= d)%Q -> ((m - d) / m <= 1)%Q.
Proof. intros m d Hm Hd. apply Qle_shift_div_r; [exact Hm|]. Lqa.lra. Qed.

(** X14.  On a viewport of positive size every letter style is bounded: the
    stroke width is between 1 and 9 pixels, the right margin equals the
    stroke width, the weight is between 100 and 400, the scale is
    1 + stroke/30 (between 31/30 and 13/10), and a shadow, when there is
    one, has an intensity above 0.1 and at most 1. *)
Theorem letter_style_is_bounded :
  forall mouseX mouseY screenWidth screenHeight letterRect index n,
    (0 < screenWidth)%Z -> (0 < screenHeight)%Z -> (0 < n)%nat ->
    let st := letterStyle mouseX mouseY screenWidth screenHeight letterRect index n in
    (1 <= webkitTextStrokeWidth st <= 9)%Z
    /\ marginRight st = webkitTextStrokeWidth st
    /\ (100 <= wght st)%Q /\ (wght st <= 400)%Q
    /\ (scaleSize st == 1 + inject_Z (webkitTextStrokeWidth st) / 30)%Q
    /\ (31 # 30 <= scaleSize st)%Q /\ (scaleSize st <= 13 # 10)%Q
    /\ (forall i, textShadow st = Some i -> (1 # 10 < i)%Q /\ (i <= 1)%Q).
Proof.
  intros mouseX mouseY screenWidth screenHeight letterRect index n Hw Hh Hn. cbv zeta.
  unfold letterStyle.
  cbn [webkitTextStrokeWidth marginRight wght scaleSize textShadow].
  set (dx := Qabs.Qabs (rect_left letterRect + rect_width letterRect / 2 - mouseX)).
  assert (Hdx : (0 <= dx)%Q) by apply Qabs.Qabs_nonneg.
  clearbody dx.
  set (stroke := Z.min 9 (Z.max 1 _)).
  assert (Hs : (1 <= stroke <= 9)%Z) by (unfold stroke; lia).
  assert (Hm : (stroke * 1)%Z = stroke) by lia.
  clearbody stroke.
  assert (Hsq : (1 <= inject_Z stroke)%Q /\ (inject_Z stroke <= 9)%Q).
  { split; [change 1%Q with (inject_Z 1) | change 9%Q with (inject_Z 9)];
      rewrite <- Zle_Qle; lia. }
  split; [exact Hs|]. split; [exact Hm|].
  split; [apply Q.min_glb; [Lqa.lra | apply Q.le_max_l]|].
  split; [apply Q.le_min_l|].
  split; [reflexivity|].
  split; [|split].
  - assert (E : (inject_Z stroke / 30 == (1 # 30) * inject_Z stroke)%Q) by field.
    rewrite E. Lqa.lra.
  - assert (E : (inject_Z stroke / 30 == (1 # 30) * inject_Z stroke)%Q) by field.
    rewrite E. Lqa.lra.
  - intros i Hi.
    destruct (Qlt_le_dec _ _) as [Hlt|Hle]; [|discriminate Hi].
    injection Hi as <-. split; [exact Hlt|].
    apply Q.max_lub; [Lqa.lra|].
    apply (ratio_le_1 (inject_Z screenWidth / 2) dx); [|exact Hdx].
    assert (0 < inject_Z screenWidth)%Q
      by (change 0%Q with (inject_Z 0); rewrite <- Zlt_Qlt; exact Hw).
    apply Qlt_shift_div_l; Lqa.lra.
Qed.

Lemma letter_style_is_bounded_witness :
  (1 <= webkitTextStrokeWidth (letterStyle 300 100 1000 800 letterBox 0 2) <= 9)%Z.
Proof.
  apply (letter_style_is_bounded 300 100 1000 800 letterBox 0 2).
  - lia.
  - lia.
  - lia.
Defined.

Lemma half_width_pos : forall w : Z, (0 < w)%Z -> (0 < inject_Z w / 2)%Q.
Proof.
  intros w Hw.
  assert (0 < inject_Z w)%Q by (change 0%Q with (inject_Z 0); rewrite <- Zlt_Qlt; exact Hw).
  apply Qlt_shift_div_l; Lqa.lra.
Qed.

Lemma ratio8_le : forall (a m d : Q),
  (0 < m)%Q -> ((a <= (m - d) / m * 8)%Q <-> (a * m <= 8 * (m - d))%Q).
Proof.
  intros a m d Hm.
  assert (E : ((m - d) / m * 8 * m == 8 * (m - d))%Q) by (field; Lqa.lra).
  rewrite <- E. symmetry. apply Qmult_le_r. exact Hm.
Qed.

Lemma ratio8_lt : forall (a m d : Q),
  (0 < m)%Q -> (((m - d) / m * 8 < a)%Q <-> (8 * (m - d) < a * m)%Q).
Proof.
  intros a m d Hm.
  assert (E : ((m - d) / m * 8 * m == 8 * (m - d))%Q) by (field; Lqa.lra).
  rewrite <- E. symmetry. apply Qmult_lt_r. exact Hm.
Qed.

(** X15.  On a viewport of positive width the stroke reaches its maximum of
    9 pixels exactly when the pointer is horizontally on the letter's centre,
    and its minimum of 1 pixel exactly when the horizontal distance exceeds
    7/16 of the viewport width. *)
Theorem stroke_is_widest_only_under_the_pointer :
  forall mouseX mouseY screenWidth screenHeight letterRect index n,
    (0 < screenWidth)%Z ->
    let st := letterStyle mouseX mouseY screenWidth screenHeight letterRect index n in
    (webkitTextStrokeWidth st = 9%Z <-> (letterDistanceX mouseX letterRect == 0)%Q)
    /\ (webkitTextStrokeWidth st = 1%Z
        <-> (7 * inject_Z screenWidth < 16 * letterDistanceX mouseX letterRect)%Q).
Proof.
  intros mouseX mouseY screenWidth screenHeight letterRect index n Hw. cbv zeta.
  rewrite stroke_value.
  pose proof (half_width_pos screenWidth Hw) as Hm.
  assert (Hd : (0 <= letterDistanceX mouseX letterRect)%Q) by apply Qabs.Qabs_nonneg.
  set (d := letterDistanceX mouseX letterRect) in *. clearbody d.
  assert (Hmw : (inject_Z screenWidth / 2 * 2 == inject_Z screenWidth)%Q) by field.
  set (m := (inject_Z screenWidth / 2)%Q) in *.
  set (fl := Qfloor ((m - d) / m * 8)).
  split.
  - assert (H8 : (8 <= fl)%Z <-> (d == 0)%Q).
    { unfold fl. rewrite Qfloor_ge, ratio8_le by exact Hm.
      change (inject_Z 8) with 8%Q. split; intros H; Lqa.lra. }
    split; intros H.
    + apply H8. lia.
    + apply H8 in H. lia.
  - assert (H1 : (fl < 1)%Z <-> (7 * inject_Z screenWidth < 16 * d)%Q).
    { unfold fl. rewrite Qfloor_lt, ratio8_lt by exact Hm.
      change (inject_Z 1) with 1%Q. split; intros H; Lqa.lra. }
    split; intros H.
    + apply H1. lia.
    + apply H1 in H. lia.
Qed.

Lemma stroke_is_widest_only_under_the_pointer_witness :
  webkitTextStrokeWidth (letterStyle 300 100 1000 800 letterBox 0 2) = 9%Z.
Proof.
  apply (proj1 (stroke_is_widest_only_under_the_pointer 300 100 1000 800 letterBox 0 2
                  ltac:(lia))).
  reflexivity.
Defined.

Lemma margin_value : forall mouseX mouseY screenWidth screenHeight letterRect index n,
  marginRight (letterStyle mouseX mouseY screenWidth screenHeight letterRect index n)
  = (webkitTextStrokeWidth
       (letterStyle mouseX mouseY screenWidth screenHeight letterRect index n) * 1)%Z.
Proof. reflexivity. Qed.

Lemma scale_value : forall mouseX mouseY screenWidth screenHeight letterRect index n,
  scaleSize (letterStyle mouseX mouseY screenWidth screenHeight letterRect index n)
  = (1 + inject_Z (webkitTextStrokeWidth
                     (letterStyle mouseX mouseY screenWidth screenHeight letterRect index n))
         / 30)%Q.
Proof. reflexivity. Qed.

Lemma scale_mono : forall a b : Z,
  (a <= b)%Z -> (1 + inject_Z a / 30 <= 1 + inject_Z b / 30)%Q.
Proof.
  intros a b H.
  assert (Hq : (inject_Z a <= inject_Z b)%Q) by (rewrite <- Zle_Qle; exact H).
  assert (E1 : (inject_Z a / 30 == (1 # 30) * inject_Z a)%Q) by field.
  assert (E2 : (inject_Z b / 30 == (1 # 30) * inject_Z b)%Q) by field.
  rewrite E1, E2. Lqa.lra.
Qed.

(** X16.  The effect grows towards the pointer: of two letters on the same
    viewport, the one horizontally nearer the pointer has a stroke, a right
    margin and a scale at least as large as the farther one. *)
Theorem stroke_grows_towards_the_pointer :
  forall mouseX1 mouseY1 rect1 index1 mouseX2 mouseY2 rect2 index2 screenWidth screenHeight n,
    (0 < screenWidth)%Z ->
    (letterDistanceX mouseX1 rect1 <= letterDistanceX mouseX2 rect2)%Q ->
    let near := letterStyle mouseX1 mouseY1 screenWidth screenHeight rect1 index1 n in
    let far := letterStyle mouseX2 mouseY2 screenWidth screenHeight rect2 index2 n in
    (webkitTextStrokeWidth far <= webkitTextStrokeWidth near)%Z
    /\ (marginRight far <= marginRight near)%Z
    /\ (scaleSize far <= scaleSize near)%Q.
Proof.
  intros mouseX1 mouseY1 rect1 index1 mouseX2 mouseY2 rect2 index2 screenWidth
    screenHeight n Hw Hd. cbv zeta.
  pose proof (half_width_pos screenWidth Hw) as Hm.
  assert (Hs : (webkitTextStrokeWidth
                  (letterStyle mouseX2 mouseY2 screenWidth screenHeight rect2 index2 n)
                <= webkitTextStrokeWidth
                     (letterStyle mouseX1 mouseY1 screenWidth screenHeight rect1 index1 n))%Z).
  { rewrite !stroke_value.
    set (d1 := letterDistanceX mouseX1 rect1) in *.
    set (d2 := letterDistanceX mouseX2 rect2) in *. clearbody d1 d2.
    set (m := (inject_Z screenWidth / 2)%Q) in *.
    assert (Hf : (Qfloor ((m - d2) / m * 8) <= Qfloor ((m - d1) / m * 8))%Z).
    { apply Qfloor_resp_le. apply ratio8_le; [exact Hm|].
      assert (E : ((m - d2) / m * 8 * m == 8 * (m - d2))%Q) by (field; Lqa.lra).
      rewrite E. Lqa.lra. }
    lia. }
  split; [exact Hs|]. split.
  - rewrite !margin_value. lia.
  - rewrite !scale_value. apply scale_mono, Hs.
Qed.

Lemma stroke_grows_towards_the_pointer_witness :
  (webkitTextStrokeWidth (letterStyle 300 100 1000 800 farLetterBox 1 2)
   <= webkitTextStrokeWidth (letterStyle 300 100 1000 800 letterBox 0 2))%Z.
Proof.
  apply (stroke_grows_towards_the_pointer 300 100 letterBox 0 300 100 farLetterBox 1
           1000 800 2).
  - lia.
  - vm_compute; discriminate.
Defined.

(** X17.  On a viewport of positive width a letter has no shadow exactly
    when its horizontal distance to the pointer is at least 9/20 of the
    viewport width; otherwise the shadow intensity is
    (middle - distance) / middle. *)
Theorem shadow_disappears_beyond_nine_tenths :
  forall mouseX mouseY screenWidth screenHeight letterRect index n,
    (0 < screenWidth)%Z ->
    let st := letterStyle mouseX mouseY screenWidth screenHeight letterRect index n in
    (textShadow st = None
     <-> (9 * inject_Z screenWidth <= 20 * letterDistanceX mouseX letterRect)%Q)
    /\ (forall i, textShadow st = Some i ->
          (i == (inject_Z screenWidth / 2 - letterDistanceX mouseX letterRect)
                / (inject_Z screenWidth / 2))%Q).
Proof.
  intros mouseX mouseY screenWidth screenHeight letterRect index n Hw. cbv zeta.
  pose proof (half_width_pos screenWidth Hw) as Hm.
  unfold letterStyle. cbn [textShadow]. fold (letterDistanceX mouseX letterRect).
  set (d := letterDistanceX mouseX letterRect). clearbody d.
  assert (Hmw : (inject_Z screenWidth / 2 * 2 == inject_Z screenWidth)%Q) by field.
  set (m := (inject_Z screenWidth / 2)%Q) in *.
  assert (Hr : ((m - d) / m * m == m - d)%Q) by (field; Lqa.lra).
  assert (Hlt : (1 # 10 < (m - d) / m)%Q <-> (20 * d < 9 * inject_Z screenWidth)%Q).
  { rewrite <- (Qmult_lt_r _ _ m Hm), Hr. split; intros H; Lqa.lra. }
  destruct (Qlt_le_dec 0.1 (Qmax 0 ((m - d) / m))) as [H|H].
  - assert (H' : (1 # 10 < (m - d) / m)%Q).
    { apply Q.max_lt_iff in H. destruct H as [H|H]; [Lqa.lra | exact H]. }
    split.
    + split; [discriminate|]. intros C. apply Hlt in H'. Lqa.lra.
    + intros i Hi. injection Hi as <-. apply Q.max_r. Lqa.lra.
  - split; [|discriminate].
    split; [|reflexivity]. intros _.
    assert (H' : ((m - d) / m <= 1 # 10)%Q).
    { apply Qle_trans with (Qmax 0 ((m - d) / m)); [apply Q.le_max_r | exact H]. }
    apply Qnot_lt_le. intros C. apply Hlt in C. Lqa.lra.
Qed.

Lemma shadow_disappears_beyond_nine_tenths_witness :
  textShadow (letterStyle 200 100 1000 800 farLetterBox 1 2) = None.
Proof.
  apply (proj1 (shadow_disappears_beyond_nine_tenths 200 100 1000 800 farLetterBox 1 2
                  ltac:(lia))).
  vm_compute; discriminate.
Defined.

(** X18.  The letters are restyled at most every 50 ms: with a clock that
    does not run backwards, a mouse move less than 50 ms after the last
    accepted one changes nothing; an accepted one advances [lastUpdate] by at
    least 50 ms and gives every letter the style computed from its own
    rectangle and index. *)
Theorem letters_restyle_at_most_every_50ms :
  forall now1 now2 clientX clientY innerWidth innerHeight letterRects st,
    (now1 <= now2)%Q ->
    let st' := handleMouseMove now1 now2 clientX clientY innerWidth innerHeight
                 letterRects st in
    ((now1 - lastUpdate st < 50)%Q -> st' = st)
    /\ ((50 <= now1 - lastUpdate st)%Q ->
          (lastUpdate st + 50 <= lastUpdate st')%Q
          /\ length (letterStyles st') = length letterRects
          /\ forall k, (k < length letterRects)%nat ->
               nth k (letterStyles st') None
               = Some (letterStyle clientX clientY innerWidth innerHeight
                         (nth k letterRects (mkDOMRect 0 0 0 0)) k (length letterRects))).
Proof.
  intros now1 now2 clientX clientY innerWidth innerHeight letterRects st Hn. cbv zeta.
  unfold handleMouseMove.
  destruct (Qlt_le_dec (now1 - lastUpdate st) 50) as [Hlt|Hge].
  - split; [reflexivity|]. intros C. Lqa.lra.
  - split; [intros C; Lqa.lra|]. intros _. cbn [lastUpdate letterStyles].
    split; [Lqa.lra|]. split.
    + rewrite length_map, length_combine, length_seq. apply Nat.min_id.
    + intros k Hk.
      rewrite (nth_indep _ None
                 (Some (letterStyle clientX clientY innerWidth innerHeight
                          (mkDOMRect 0 0 0 0) 0%nat (length letterRects))))
        by (rewrite length_map, length_combine, length_seq, Nat.min_id; exact Hk).
      change (Some (letterStyle clientX clientY innerWidth innerHeight
                      (mkDOMRect 0 0 0 0) 0%nat (length letterRects)))
        with ((fun ir : nat * DOMRect =>
                 Some (letterStyle clientX clientY innerWidth innerHeight
                         (snd ir) (fst ir) (length letterRects)))
                (0%nat, mkDOMRect 0 0 0 0)).
      rewrite map_nth, combine_nth by (rewrite length_seq; reflexivity).
      rewrite seq_nth by exact Hk. reflexivity.
Qed.

Lemma letters_restyle_at_most_every_50ms_witness :
  handleMouseMove 30 31 300 100 1000 800 [letterBox; farLetterBox] freshTextEffects
  = freshTextEffects.
Proof.
  apply (proj1 (letters_restyle_at_most_every_50ms 30 31 300 100 1000 800
                  [letterBox; farLetterBox] freshTextEffects
                  ltac:(vm_compute; discriminate))).
  reflexivity.
Defined.

(** ** The grid and the typewriter *)

Module DomFacts.
Import String.
Import Dom.

Lemma contains_app : forall c l1 l2,
  contains c (l1 ++ l2) = contains c l1 || contains c l2.
Proof. intros. unfold contains. apply existsb_app. Qed.

Lemma contains_add_same : forall c l, contains c (add c l) = true.
Proof.
  intros c l. unfold add. destruct (contains c l) eqn:E; [exact E|].
  rewrite contains_app, E. cbn. rewrite String.eqb_refl. reflexivity.
Qed.

Lemma contains_add_other : forall c d l,
  d <> c -> contains d (add c l) = contains d l.
Proof.
  intros c d l Hd. unfold add. destruct (contains c l); [reflexivity|].
  rewrite contains_app. cbn.
  apply String.eqb_neq in Hd. rewrite Hd. cbn. apply Bool.orb_false_r.
Qed.

Lemma contains_remove_same : forall c l, contains c (remove c l) = false.
Proof.
  intros c l. unfold contains, remove. induction l as [|x l IH]; [reflexivity|].
  cbn. destruct (String.eqb c x) eqn:E; cbn; [exact IH|]. rewrite E. exact IH.
Qed.

Lemma contains_remove_other : forall c d l,
  d <> c -> contains d (remove c l) = contains d l.
Proof.
  intros c d l Hd. unfold contains, remove. induction l as [|x l IH]; [reflexivity|].
  cbn. destruct (String.eqb c x) eqn:E; cbn.
  - apply String.eqb_eq in E. subst x.
    apply String.eqb_neq in Hd. rewrite Hd. exact IH.
  - rewrite IH. reflexivity.
Qed.

Lemma add_idem : forall c l, add c (add c l) = add c l.
Proof. intros c l. unfold add at 1. rewrite contains_add_same. reflexivity. Qed.

Lemma remove_idem : forall c l, remove c (remove c l) = remove c l.
Proof.
  intros c l. unfold remove. induction l as [|x l IH]; [reflexivity|].
  cbn. destruct (negb (String.eqb c x)) eqn:E; cbn; [rewrite E, IH; reflexivity | exact IH].
Qed.

(** X19.  [handleGridVisibility] makes visibility follow the viewport width:
    afterwards every grid item is visible exactly when the width is at most
    1024, every other class of every item is kept, and running it again at
    the same width changes nothing. *)
Theorem grid_visibility_follows_width :
  forall innerWidth gridItems,
    let shown := handleGridVisibility innerWidth gridItems in
    List.length shown = List.length gridItems
    /\ (forall k, (k < List.length gridItems)%nat ->
          contains "visible" (nth k shown []) = (innerWidth <=? 1024)%Z
          /\ forall c, c <> "visible"%string ->
               contains c (nth k shown []) = contains c (nth k gridItems []))
    /\ handleGridVisibility innerWidth shown = shown.
Proof.
  intros w items. cbv zeta. unfold handleGridVisibility.
  destruct (w <=? 1024)%Z.
  - split; [apply length_map|]. split.
    + intros k Hk.
      rewrite (nth_indep _ [] (add "visible" [])) by (rewrite length_map; exact Hk).
      rewrite map_nth. split; [apply contains_add_same|].
      intros c Hc. apply contains_add_other, Hc.
    + rewrite map_map. apply map_ext. intros l. apply add_idem.
  - split; [apply length_map|]. split.
    + intros k Hk.
      change (@nil string) with (remove "visible" []) at 1 2.
      rewrite map_nth. split; [apply contains_remove_same|].
      intros c Hc. apply contains_remove_other, Hc.
    + rewrite map_map. apply map_ext. intros l. apply remove_idem.
Qed.

Lemma grid_visibility_follows_width_witness :
  contains "visible"
    (nth 1 (handleGridVisibility 1440 exampleGrid) [])
  = false.
Proof.
  apply (proj1 (proj1 (proj2 (grid_visibility_follows_width 1440
                                exampleGrid))
                  1%nat ltac:(simpl; lia))).
Defined.

Lemma revealGrid_fold_large :
  forall (f : list classList * list Timer -> nat * classList
              -> list classList * list Timer),
  (forall acc index it,
     f acc (index, it)
     = (fst acc ++ [it], snd acc ++ [mkTimer (Z.of_nat index * 450) index])) ->
  forall l a acc,
  fold_left f (combine (seq a (List.length l)) l) acc
  = (fst acc ++ l,
     snd acc ++ map (fun i => mkTimer (Z.of_nat i * 450) i) (seq a (List.length l))).
Proof.
  intros f Hf l. induction l as [|x l IH]; intros a acc.
  - cbn. rewrite !app_nil_r. destruct acc; reflexivity.
  - cbn [List.length seq combine fold_left]. rewrite IH, Hf. cbn [fst snd map].
    rewrite <- !app_assoc. reflexivity.
Qed.

Lemma revealGrid_large : forall innerWidth gridItems,
  (1024 < innerWidth)%Z ->
  revealGrid innerWidth gridItems
  = (gridItems,
     map (fun i => mkTimer (Z.of_nat i * 450) i) (seq 0 (List.length gridItems))).
Proof.
  intros w items Hw. unfold revealGrid.
  assert (E : (w <=? 1024)%Z = false) by (apply Z.leb_gt; exact Hw).
  rewrite E. rewrite revealGrid_fold_large by (intros; reflexivity). reflexivity.
Qed.

Lemma updateItem_length : forall k f l, List.length (updateItem k f l) = List.length l.
Proof.
  intros. unfold updateItem.
  rewrite length_map, length_combine, length_seq. apply Nat.min_id.
Qed.

Lemma updateItem_nth : forall k f l j,
  (j < List.length l)%nat ->
  nth j (updateItem k f l) [] = if Nat.eqb j k then f (nth j l []) else nth j l [].
Proof.
  intros k f l j Hj. unfold updateItem.
  set (g := fun ii : nat * classList => if Nat.eqb (fst ii) k then f (snd ii) else snd ii).
  rewrite (nth_indep _ [] (g (0%nat, [])))
    by (rewrite length_map, length_combine, length_seq, Nat.min_id; exact Hj).
  rewrite map_nth, combine_nth by (rewrite length_seq; reflexivity).
  rewrite seq_nth by exact Hj. reflexivity.
Qed.

Lemma fired_timers_show : forall timers gridItems k,
  (k < List.length gridItems)%nat ->
  contains "visible" (nth k (fold_left (fun its t => fireTimer t its) timers gridItems) [])
  = contains "visible" (nth k gridItems [])
    || existsb (fun t => Nat.eqb k (target t)) timers.
Proof.
  induction timers as [|t timers IH]; intros items k Hk.
  - cbn. rewrite Bool.orb_false_r. reflexivity.
  - cbn [fold_left existsb]. rewrite IH by (unfold fireTimer; rewrite updateItem_length; exact Hk).
    unfold fireTimer. rewrite updateItem_nth by exact Hk.
    destruct (Nat.eqb k (target t)) eqn:E.
    + rewrite contains_add_same. cbn. rewrite Bool.orb_true_r. reflexivity.
    + reflexivity.
Qed.

Lemma due_timer_exists : forall n elapsed k,
  (k < n)%nat ->
  existsb (fun t => Nat.eqb k (target t))
    (filter (fun t => (delay t <=? elapsed)%Z)
       (map (fun i => mkTimer (Z.of_nat i * 450) i) (seq 0 n)))
  = (450 * Z.of_nat k <=? elapsed)%Z.
Proof.
  intros n elapsed k Hk. apply Bool.eq_iff_eq_true.
  rewrite existsb_exists, Z.leb_le. split.
  - intros (t & Hin & He). apply filter_In in Hin. destruct Hin as [Hin Hd].
    apply in_map_iff in Hin. destruct Hin as (i & <- & _).
    cbn in He, Hd. apply Nat.eqb_eq in He. subst i. apply Z.leb_le in Hd. lia.
  - intros H. exists (mkTimer (Z.of_nat k * 450) k). split.
    + apply filter_In. split.
      * apply in_map_iff. exists k. split; [reflexivity|]. apply in_seq. lia.
      * cbn. apply Z.leb_le. lia.
    + cbn. apply Nat.eqb_refl.
Qed.

Lemma reveal_from_hidden :
  forall innerWidth gridItems,
    (1024 < innerWidth)%Z ->
    (forall it, In it gridItems -> contains "visible" it = false) ->
    forall elapsed k, (k < List.length gridItems)%nat ->
      contains "visible"
        (nth k (afterElapsed elapsed (onBoEnter innerWidth gridItems)) [])
      = (450 * Z.of_nat k <=? elapsed)%Z.
Proof.
  intros w items Hw Hhidden elapsed k Hk. unfold onBoEnter.
  assert (E : (1024 <? w)%Z = true) by (apply Z.ltb_lt; exact Hw).
  rewrite E, revealGrid_large by exact Hw.
  unfold afterElapsed. cbn [fst snd].
  rewrite fired_timers_show by exact Hk.
  rewrite (Hhidden (nth k items [])) by (apply nth_In; exact Hk).
  cbn [orb]. apply due_timer_exists, Hk.
Qed.

(** X20.  The grid reveal is staggered.  With the grid as
    [handleGridVisibility] leaves it at the current width, entering [#bo] on
    a viewport wider than 1024 changes no class at once and sets one timer
    per item, after which item [k] is visible exactly from 450 * k ms on; at
    a width of at most 1024 entering sets no timer and changes nothing, all
    items being visible already. *)
Theorem grid_reveal_is_staggered :
  forall innerWidth gridItems,
    let shown := handleGridVisibility innerWidth gridItems in
    ((1024 < innerWidth)%Z ->
       fst (onBoEnter innerWidth shown) = shown
       /\ List.length (snd (onBoEnter innerWidth shown)) = List.length gridItems
       /\ forall elapsed k, (k < List.length gridItems)%nat ->
            contains "visible" (nth k (afterElapsed elapsed (onBoEnter innerWidth shown)) [])
            = (450 * Z.of_nat k <=? elapsed)%Z)
    /\ ((innerWidth <= 1024)%Z ->
          onBoEnter innerWidth shown = (shown, [])
          /\ forall elapsed k, (k < List.length gridItems)%nat ->
               contains "visible"
                 (nth k (afterElapsed elapsed (onBoEnter innerWidth shown)) [])
               = true).
Proof.
  intros w items. cbv zeta.
  assert (Hlen : List.length (handleGridVisibility w items) = List.length items).
  { unfold handleGridVisibility. destruct (w <=? 1024)%Z; apply length_map. }
  split.
  - intros Hw.
    assert (E : (1024 <? w)%Z = true) by (apply Z.ltb_lt; exact Hw).
    split; [|split].
    + unfold onBoEnter. rewrite E, revealGrid_large by exact Hw. reflexivity.
    + unfold onBoEnter. rewrite E, revealGrid_large by exact Hw. cbn [snd].
      rewrite length_map, length_seq. exact Hlen.
    + intros elapsed k Hk. apply reveal_from_hidden; [exact Hw| |rewrite Hlen; exact Hk].
      intros it Hin. unfold handleGridVisibility in Hin.
      assert (E' : (w <=? 1024)%Z = false) by (apply Z.leb_gt; exact Hw).
      rewrite E' in Hin. apply in_map_iff in Hin. destruct Hin as (l & <- & _).
      apply contains_remove_same.
  - intros Hw.
    assert (E : (1024 <? w)%Z = false) by (apply Z.ltb_ge; exact Hw).
    unfold onBoEnter. rewrite E. split; [reflexivity|].
    intros elapsed k Hk. unfold afterElapsed. cbn [fst snd filter fold_left].
    unfold handleGridVisibility.
    assert (E' : (w <=? 1024)%Z = true) by (apply Z.leb_le; exact Hw).
    rewrite E'.
    rewrite (nth_indep _ [] (add "visible" [])) by (rewrite length_map; exact Hk).
    rewrite map_nth. apply contains_add_same.
Qed.

Lemma grid_reveal_is_staggered_witness :
  contains "visible"
    (nth 2
       (afterElapsed 899
          (onBoEnter 1440
             (handleGridVisibility 1440
                exampleGrid)))
       [])
  = (450 * Z.of_nat 2 <=? 899)%Z.
Proof.
  apply (proj2 (proj2 (proj1 (grid_reveal_is_staggered 1440
                                exampleGrid)
                         ltac:(lia)))
           899%Z 2%nat ltac:(simpl; lia)).
Defined.

(** X21.  The hover layout does not depend on visibility: for an item whose
    first two classes are not ["visible"], adding or removing the class
    ["visible"] (as the visibility code does) leaves the layout
    [applyHoverEffect] chooses unchanged. *)
Theorem hover_layout_ignores_visibility :
  forall first second rest g,
    first <> "visible"%string -> second <> "visible"%string ->
    let it := first :: second :: rest in
    applyHoverEffect (add "visible" it) g = applyHoverEffect it g
    /\ applyHoverEffect (remove "visible" it) g = applyHoverEffect it g.
Proof.
  intros first second rest g H1 H2. cbv zeta.
  assert (E1 : String.eqb "visible" first = false) by (apply String.eqb_neq; congruence).
  assert (E2 : String.eqb "visible" second = false) by (apply String.eqb_neq; congruence).
  split.
  - unfold applyHoverEffect, add.
    destruct (contains "visible" (first :: second :: rest)); reflexivity.
  - unfold applyHoverEffect, remove. cbn [filter]. rewrite E1, E2. reflexivity.
Qed.

Lemma hover_layout_ignores_visibility_witness :
  applyHoverEffect (add "visible" exampleItem) unsetStyle
  = applyHoverEffect exampleItem unsetStyle.
Proof.
  apply (proj1 (hover_layout_ignores_visibility "boagrid" "a" [] unsetStyle
                  ltac:(discriminate) ltac:(discriminate))).
Defined.

(** X22.  Hovering a grid item that has no second class, or whose second
    class is none of a to g, gives the layout of [resetGrid].  For every
    item the two track templates chosen do not depend on the style before
    the hover, and the transition is either left as it was or set by the
    fallback to ["all 0.3s ease"]; leaving the item afterwards gives the
    same style as leaving without the hover. *)
Theorem grid_hover_falls_back_to_reset :
  forall hoveredItem g,
    (item 1 hoveredItem = None -> applyHoverEffect hoveredItem g = resetGrid g)
    /\ (forall c, item 1 hoveredItem = Some c ->
          ~ In c ["a"; "b"; "c"; "d"; "e"; "f"; "g"]%string ->
          applyHoverEffect hoveredItem g = resetGrid g)
    /\ (forall g', gridTemplateRows (applyHoverEffect hoveredItem g)
                   = gridTemplateRows (applyHoverEffect hoveredItem g')
                   /\ gridTemplateColumns (applyHoverEffect hoveredItem g)
                      = gridTemplateColumns (applyHoverEffect hoveredItem g'))
    /\ (transition (applyHoverEffect hoveredItem g) = transition g
        \/ transition (applyHoverEffect hoveredItem g) = "all 0.3s ease"%string)
    /\ resetGrid (applyHoverEffect hoveredItem g) = resetGrid g.
Proof.
  intros it g. split; [|split; [|split; [|split]]].
  - intros H. unfold applyHoverEffect. rewrite H. reflexivity.
  - intros c H Hc. unfold applyHoverEffect. rewrite H.
    repeat match goal with
    | |- context [String.eqb c ?s] =>
        let E := fresh "E" in
        destruct (String.eqb c s) eqn:E;
        [apply String.eqb_eq in E; exfalso; apply Hc; subst c; cbn; tauto|]
    end.
    reflexivity.
  - intros g'. unfold applyHoverEffect. destruct (item 1 it) as [c|]; [|split; reflexivity].
    repeat match goal with
    | |- context [String.eqb c ?s] => destruct (String.eqb c s)
    end; split; reflexivity.
  - unfold applyHoverEffect. destruct (item 1 it) as [c|]; [|right; reflexivity].
    repeat match goal with
    | |- context [String.eqb c ?s] => destruct (String.eqb c s)
    end; try (left; reflexivity). right; reflexivity.
  - reflexivity.
Qed.

Lemma grid_hover_falls_back_to_reset_witness :
  applyHoverEffect bareItem hoveredStyle
  = resetGrid hoveredStyle.
Proof.
  apply (proj1 (grid_hover_falls_back_to_reset bareItem
                  hoveredStyle)).
  reflexivity.
Defined.

(** X23.  [toggleAnimation] always ends with the animation running: once
    the timer it may set has fired, the class list of [.bio] contains
    ["animation"] and every other class is as before.  If the class was
    there it is removed first and the timer is set (the animation restarts);
    if not it is appended at once and no timer is set. *)
Theorem toggle_always_ends_animated :
  forall typewriter,
    contains "animation" (toggleSettled typewriter) = true
    /\ (forall c, c <> "animation"%string ->
          contains c (toggleSettled typewriter) = contains c typewriter)
    /\ (contains "animation" typewriter = true ->
          snd (toggleAnimation typewriter) = true
          /\ contains "animation" (fst (toggleAnimation typewriter)) = false)
    /\ (contains "animation" typewriter = false ->
          toggleAnimation typewriter = (typewriter ++ ["animation"%string], false)).
Proof.
  intros l. unfold toggleSettled, toggleAnimation, startAnimation.
  destruct (contains "animation" l) eqn:E.
  - split; [apply contains_add_same|]. split.
    + intros c Hc. rewrite contains_add_other, contains_remove_other by exact Hc.
      reflexivity.
    + split; [|discriminate]. intros _. cbn [fst snd].
      split; [reflexivity | apply contains_remove_same].
  - split; [apply contains_add_same|]. split.
    + intros c Hc. apply contains_add_other, Hc.
    + split; [discriminate|]. intros _. unfold add. rewrite E. reflexivity.
Qed.

Lemma toggle_always_ends_animated_witness :
  snd (toggleAnimation runningTypewriter) = true
  /\ contains "animation" (fst (toggleAnimation runningTypewriter)) = false.
Proof.
  apply (proj1 (proj2 (proj2 (toggle_always_ends_animated runningTypewriter)))).
  reflexivity.
Defined.

End DomFacts.
